(** * Verification of the latest-wins matrix multiplication service

    Shallow embedding of [concurrency/v2/main.go] (and of the earlier
    handler kept in the repository without a file name), covering the
    parallel multiplier, the cancellation registry, the request handler and
    [extractIP].  Go's [int] is the 64-bit host integer: values are [Z] with
    the two's-complement wrap-around written out. *)

From stdpp Require Import base list gmap strings sorting.
From Stdlib Require Import ZArith Lia Ascii.

Open Scope Z_scope.

(* ------------------------------------------------------------------ *)
(** ** Go integers *)

Definition int_modulus : Z := 2 ^ 64.
Definition int_half : Z := 2 ^ 63.

(** Result of a 64-bit signed [int] operation (wrap-around, no trap). *)
Definition wrap64 (z : Z) : Z := (z + int_half) mod int_modulus - int_half.

(* ------------------------------------------------------------------ *)
(** ** The parallel multiplier *)

(** [[][]int]; indexing [m[i][j]].  The handler only passes matrices built
    by [generateMatrix] with the right size, where every index is in range. *)
Abbreviation matrix := (list (list Z)).

Definition get (m : matrix) (i j : nat) : Z := default 0 (m !! i ≫= (.!! j)).

(** The inner loop [for k := 0; k < size; k++ { result[row][j] += a[row][k] * b[k][j] }],
    with [acc] the current value of [result[row][j]]. *)
Fixpoint inner_k (a b : matrix) (row j k fuel : nat) (acc : Z) : Z :=
  match fuel with
  | O => acc
  | S f => inner_k a b row j (S k) f (wrap64 (acc + wrap64 (get a row k * get b k j)))
  end.

(** The column loop of [multiplyRow]: before each column [j] the task polls
    [ctx.Done()]; [done j] is what that poll observes.  On a triggered
    signal the task returns, leaving the rest of the row untouched. *)
Fixpoint multiplyRow_cols (done : nat → bool) (a b : matrix) (row size j fuel : nat)
    (r : list Z) : list Z :=
  match fuel with
  | O => r
  | S f =>
      if done j then r
      else multiplyRow_cols done a b row size (S j) f
             (<[j := inner_k a b row j 0 size (default 0 (r !! j))]> r)
  end.

(** [multiplyRow(ctx, a, b, result, row, size, wg)] acting on [result[row]]. *)
Definition multiplyRow (done : nat → bool) (a b : matrix) (row size : nat) (r : list Z) : list Z :=
  multiplyRow_cols done a b row size 0 size r.

(** [multiplyMatricesParallel(ctx, a, b, size)].  [result] is created by
    [make] (all zeros); goroutine [i] writes only [result[i]], so after
    [wg.Wait()] row [i] is what task [i] computed from the zero row,
    whatever the schedule.  [done i j] is what task [i] observed when it
    polled the context before column [j]. *)
Definition multiplyMatricesParallel (done : nat → nat → bool) (a b : matrix) (size : nat) : matrix :=
  map (λ i, multiplyRow (done i) a b i size (replicate size 0)) (seq 0 size).

(** The signal that is never triggered. *)
Definition never_done : nat → nat → bool := λ _ _, false.

(** The mathematical dot product [Σ_{k<size} a[i][k] * b[k][j]]. *)
Definition dot (a b : matrix) (i j size : nat) : Z :=
  foldr Z.add 0 (map (λ k, get a i k * get b k j) (seq 0 size)).

(** Reference: the standard sequential triple loop (spec §4.2, §8), with the
    same native [int] arithmetic. *)
Definition reference_product (a b : matrix) (size : nat) : matrix :=
  map (λ i, map (λ j,
         fold_left (λ acc k, wrap64 (acc + wrap64 (get a i k * get b k j))) (seq 0 size) 0)
       (seq 0 size)) (seq 0 size).

(* ------------------------------------------------------------------ *)
(** ** Go strings and [strconv.Atoi] *)

(** Go strings are byte strings; a byte is an [ascii] here. *)
Definition bytes_of (s : string) : list ascii := String.list_ascii_of_string s.
Definition string_of (l : list ascii) : string := String.string_of_list_ascii l.

Definition byte (n : nat) : ascii := ascii_of_nat n.
Definition nl : string := String.String (byte 10) String.EmptyString.

(** Error result of the [strconv] parsers ([err == nil] is [NoErr]). *)
Inductive num_error := NoErr | ErrSyntax | ErrRange.

Definition err_nil (e : num_error) : bool :=
  match e with NoErr => true | _ => false end.

(** [ch -= '0'; if ch > 9 { ... }] on a byte: the subtraction wraps. *)
Definition byte_digit (c : ascii) : option Z :=
  let d := ((nat_of_ascii c + 256 - 48) mod 256)%nat in
  if (d <=? 9)%nat then Some (Z.of_nat d) else None.

(** Fast path of [Atoi] (64-bit [int], [0 < len(s) < 19]), digit loop. *)
Fixpoint atoi_fast_digits (s : list ascii) (n : Z) : option Z :=
  match s with
  | [] => Some n
  | ch :: s' =>
      match byte_digit ch with
      | None => None
      | Some d => atoi_fast_digits s' (n * 10 + d)
      end
  end.

Definition atoi_fast (s0 : list ascii) : Z * num_error :=
  let s := match s0 with
           | c :: t => if decide (c = "-"%char ∨ c = "+"%char) then t else s0
           | [] => []
           end in
  if decide (s0 ≠ [] ∧ s = []) then (0, ErrSyntax)
  else match atoi_fast_digits s 0 with
       | None => (0, ErrSyntax)
       | Some n => (if decide (head s0 = Some "-"%char) then - n else n, NoErr)
       end.

Definition maxUint64 : Z := 2 ^ 64 - 1.

(** [ParseUint(s, 10, 64)] digit loop: [cutoff = maxVal/10 + 1]; letters
    have digit value ≥ 10 and, like every other non-digit byte (also ['_'],
    accepted only for base 0), are a syntax error. *)
Fixpoint parse_uint_loop (s : list ascii) (n : Z) : Z * num_error :=
  match s with
  | [] => (n, NoErr)
  | c :: s' =>
      match byte_digit c with
      | None => (0, ErrSyntax)
      | Some d =>
          if (maxUint64 / 10 + 1 <=? n) then (maxUint64, ErrRange)
          else let n1 := n * 10 + d in
               if (maxUint64 <? n1) then (maxUint64, ErrRange)
               else parse_uint_loop s' n1
      end
  end.

Definition parse_uint (s : list ascii) : Z * num_error :=
  match s with
  | [] => (0, ErrSyntax)
  | _ => parse_uint_loop s 0
  end.

(** [ParseInt(s, 10, 0)] on a 64-bit host. *)
Definition parse_int (s0 : list ascii) : Z * num_error :=
  match s0 with
  | [] => (0, ErrSyntax)
  | c :: t =>
      let '(neg, s) := if decide (c = "+"%char) then (false, t)
                       else if decide (c = "-"%char) then (true, t) else (false, s0) in
      let '(un, err) := parse_uint s in
      match err with
      | ErrSyntax => (0, ErrSyntax)
      | _ =>
          if negb neg && (2 ^ 63 <=? un) then (2 ^ 63 - 1, ErrRange)
          else if neg && (2 ^ 63 <? un) then (- 2 ^ 63, ErrRange)
          else (if neg then - un else un, err)
      end
  end.

(** [strconv.Atoi(s)]: fast path for [0 < len(s) < 19], else [ParseInt]. *)
Definition Atoi (s : string) : Z * num_error :=
  let l := bytes_of s in
  if decide (0 < length l < 19)%nat then atoi_fast l else parse_int l.

(* ------------------------------------------------------------------ *)
(** ** [fmt] formatting *)

Fixpoint dec_digits (fuel : nat) (n : N) (acc : string) : string :=
  match fuel with
  | O => acc
  | S f =>
      let acc' := String.String (byte (48 + N.to_nat (n mod 10))) acc in
      if (n <? 10)%N then acc' else dec_digits f (n / 10) acc'
  end.

(** [%d] of an [int]. *)
Definition format_int (z : Z) : string :=
  if z <? 0 then "-" +:+ dec_digits 64 (Z.to_N (- z)) ""
  else dec_digits 64 (Z.to_N z) "".

(** [%v] of a [[]int]: bracketed, space separated. *)
Definition format_row (row : list Z) : string :=
  "[" +:+ String.concat " " (map format_int row) +:+ "]".

(* ------------------------------------------------------------------ *)
(** ** [net.SplitHostPort] and [extractIP] *)

Fixpoint index_byte (l : list ascii) (c : ascii) : option nat :=
  match l with
  | [] => None
  | x :: t => if decide (x = c) then Some 0%nat else S <$> index_byte t c
  end.

Definition last_index_byte (l : list ascii) (c : ascii) : option nat :=
  (λ k, length l - S k)%nat <$> index_byte (reverse l) c.

(** Go's [net.SplitHostPort]; [None] is a non-nil error. *)
Definition SplitHostPort_bytes (hp : list ascii) : option (list ascii * list ascii) :=
  match last_index_byte hp ":"%char with
  | None => None
  | Some i =>
      let hostjk :=
        if decide (head hp = Some "["%char) then
          match index_byte hp "]"%char with
          | None => None
          | Some e =>
              if decide (S e = length hp) then None
              else if decide (S e = i) then Some (take (e - 1) (drop 1 hp), 1%nat, S e)
              else None
          end
        else
          let host := take i hp in
          match index_byte host ":"%char with
          | Some _ => None
          | None => Some (host, 0%nat, 0%nat)
          end in
      match hostjk with
      | None => None
      | Some (host, j, k) =>
          if decide (is_Some (index_byte (drop j hp) "["%char)) then None
          else if decide (is_Some (index_byte (drop k hp) "]"%char)) then None
          else Some (host, drop (S i) hp)
      end
  end.

Definition SplitHostPort (hostport : string) : option (string * string) :=
  (λ '(h, p), (string_of h, string_of p)) <$> SplitHostPort_bytes (bytes_of hostport).

(** [extractIP(remoteAddr)]. *)
Definition extractIP (remoteAddr : string) : string :=
  match SplitHostPort remoteAddr with
  | Some (ip, _) => ip
  | None => remoteAddr
  end.

(* ------------------------------------------------------------------ *)
(** ** The cancellation registry *)

(** [activeRequests] (key ↦ the context whose [cancel] is stored; a context
    is named by the number of the request that created it) together with
    the set of contexts whose [Done()] channel has been closed. *)
Record reg_state := {
  activeRequests : gmap string nat;
  ctx_done : gset nat
}.

(** [cancelPreviousRequest(ip)], the whole body runs under [mu]. *)
Definition cancelPreviousRequest (ip : string) (st : reg_state) : reg_state :=
  match activeRequests st !! ip with
  | Some cancelFunc =>
      {| activeRequests := delete ip (activeRequests st);
         ctx_done := {[cancelFunc]} ∪ ctx_done st |}
  | None => st
  end.

(** [mu.Lock(); activeRequests[ip] = cancel; mu.Unlock()]. *)
Definition registerRequest (ip : string) (ctx : nat) (st : reg_state) : reg_state :=
  {| activeRequests := <[ip := ctx]> (activeRequests st); ctx_done := ctx_done st |}.

(* ------------------------------------------------------------------ *)
(** ** The handler, as the sequence of its effects *)

(** [generateMatrix(size)]; [rnd i j] is the [rand.Intn(100)] draw for cell
    [(i, j)]. *)
Definition generateMatrix (rnd : nat → nat → Z) (size : nat) : matrix :=
  map (λ i, map (λ j, rnd i j) (seq 0 size)) (seq 0 size).

(** What one run of [handler] observes from outside: the database, the
    random draws, the context polls of the row tasks and of the final
    [select], and the measured duration. *)
Record env := {
  env_store_ok : bool;
  env_rand_a : nat → nat → Z;
  env_rand_b : nat → nat → Z;
  env_row_done : nat → nat → bool;
  env_post_done : bool;
  env_ms : Z
}.

Inductive event :=
  | EvPrintln (s : string)
  | EvSupersede (ip : string)
  | EvRegister (ip : string)
  | EvAwaitCancel
  | EvStore (ip : string) (size : Z)
  | EvGenerate (size : Z)
  | EvMultiply (size : Z)
  | EvWrite (s : string)
  | EvHttpError (msg : string) (code : Z).

Definition msg_cancelled_large : string := "Request was cancelled due to large number" +:+ nl.
Definition msg_cancelled : string := "Request was cancelled" +:+ nl.
Definition msg_result_title : string := "Resulting Matrix:" +:+ nl.

(** ["Matrix multiplication (size: %d) completed in %d milliseconds\n"]. *)
Definition msg_header (size ms : Z) : string :=
  "Matrix multiplication (size: " +:+ format_int size +:+ ") completed in "
  +:+ format_int ms +:+ " milliseconds" +:+ nl.

(** The computing branch after the gate: generate, multiply, then the
    final [select] on [ctx.Done()]. *)
Definition compute_and_report (e : env) (matrixSize : Z) : list event :=
  let n := Z.to_nat matrixSize in
  let a := generateMatrix (env_rand_a e) n in
  let b := generateMatrix (env_rand_b e) n in
  let result := multiplyMatricesParallel (env_row_done e) a b n in
  [EvGenerate matrixSize; EvGenerate matrixSize; EvMultiply matrixSize] ++
  if env_post_done e then [EvWrite msg_cancelled]
  else [EvWrite (msg_header matrixSize (env_ms e)); EvWrite msg_result_title]
       ++ map (λ row, EvWrite (format_row row +:+ nl)) result.

(** Size resolution of [concurrency/v2/main.go]: default before the gate. *)
Definition resolve_size (sizeParam : string) : Z :=
  let '(matrixSize, err) := Atoi sizeParam in
  if negb (err_nil err) || (matrixSize <=? 0) then 100 else matrixSize.

(** [handler] of [concurrency/v2/main.go]. *)
Definition handler (e : env) (remoteAddr sizeParam : string) : list event :=
  let ip := extractIP remoteAddr in
  [EvPrintln ip; EvSupersede ip; EvRegister ip] ++
  let matrixSize := resolve_size sizeParam in
  if 2000 <? matrixSize then [EvAwaitCancel; EvWrite msg_cancelled_large]
  else EvStore ip matrixSize ::
       if negb (env_store_ok e)
       then [EvHttpError "Failed to store request info" 500]
       else compute_and_report e matrixSize.

(** [handler] of the earlier version kept without a file name
    ([src/unnamed/part_000]): the gate is tested on the raw [Atoi] result,
    the default is applied after it, and there is no database. *)
Definition handler_v1 (e : env) (remoteAddr sizeParam : string) : list event :=
  let ip := extractIP remoteAddr in
  [EvPrintln ip; EvSupersede ip; EvRegister ip] ++
  let '(matrixSize, err) := Atoi sizeParam in
  if 2000 <? matrixSize then [EvAwaitCancel; EvWrite msg_cancelled_large]
  else let matrixSize := if negb (err_nil err) || (matrixSize <=? 0) then 100 else matrixSize in
       compute_and_report e matrixSize.

(** The response body: what the handler wrote with [fmt.Fprintf]. *)
Fixpoint body (log : list event) : string :=
  match log with
  | [] => ""
  | EvWrite s :: t => s +:+ body t
  | _ :: t => body t
  end.

Definition writes (log : list event) : list string :=
  omap (λ ev, match ev with EvWrite s => Some s | _ => None end) log.

(* ------------------------------------------------------------------ *)
(** ** Concurrent requests: an interleaving semantics *)

(** Outcome reported by a handler goroutine. *)
Inductive outcome :=
  | OSuccess (size : Z)          (* matrix written *)
  | OCancelled                   (* "Request was cancelled" *)
  | OCancelledLarge              (* "Request was cancelled due to large number" *)
  | OStoreError.                 (* http.Error 500 *)

(** Program point of one [handler] goroutine. *)
Inductive phase :=
  | PArrived                     (* before [cancelPreviousRequest] *)
  | PSuperseded                  (* before registering its [cancel] *)
  | PGate                        (* blocked in [select { case <-ctx.Done() }] *)
  | PStore (size : Z)            (* calling [storeRequestInfo] *)
  | PCompute (size : Z)          (* generating and multiplying *)
  | PDone (o : outcome).

Record job := { job_key : string; job_size : string; job_phase : phase }.

Record sys := {
  sys_reg : reg_state;
  sys_jobs : gmap nat job;        (* request number ↦ its goroutine *)
  sys_next : nat
}.

(** One atomic step of one goroutine.  Steps that touch [activeRequests]
    are exactly the two critical sections of [handler]; a request's number
    names the context it creates. *)
Inductive action :=
  | AArrive (remoteAddr sizeParam : string)
  | ASupersede (j : nat)
  | ARegister (j : nat)
  | AStore (j : nat) (ok : bool)
  | AFinish (j : nat)
  | AWake (j : nat).

Definition set_phase (j : nat) (J : job) (p : phase) (s : sys) (r : reg_state) : sys :=
  {| sys_reg := r;
     sys_jobs := <[j := {| job_key := job_key J; job_size := job_size J; job_phase := p |}]> (sys_jobs s);
     sys_next := sys_next s |}.

Definition step (s : sys) (a : action) : option sys :=
  match a with
  | AArrive addr sz =>
      Some {| sys_reg := sys_reg s;
              sys_jobs := <[sys_next s := {| job_key := extractIP addr; job_size := sz;
                                             job_phase := PArrived |}]> (sys_jobs s);
              sys_next := S (sys_next s) |}
  | ASupersede j =>
      J ← sys_jobs s !! j;
      match job_phase J with
      | PArrived => Some (set_phase j J PSuperseded s (cancelPreviousRequest (job_key J) (sys_reg s)))
      | _ => None
      end
  | ARegister j =>
      J ← sys_jobs s !! j;
      match job_phase J with
      | PSuperseded =>
          let n := resolve_size (job_size J) in
          Some (set_phase j J (if 2000 <? n then PGate else PStore n) s
                  (registerRequest (job_key J) j (sys_reg s)))
      | _ => None
      end
  | AStore j ok =>
      J ← sys_jobs s !! j;
      match job_phase J with
      | PStore n => Some (set_phase j J (if ok then PCompute n else PDone OStoreError) s (sys_reg s))
      | _ => None
      end
  | AFinish j =>
      J ← sys_jobs s !! j;
      match job_phase J with
      | PCompute n =>
          Some (set_phase j J (PDone (if bool_decide (j ∈ ctx_done (sys_reg s))
                                      then OCancelled else OSuccess n)) s (sys_reg s))
      | _ => None
      end
  | AWake j =>
      J ← sys_jobs s !! j;
      match job_phase J with
      | PGate =>
          if bool_decide (j ∈ ctx_done (sys_reg s))
          then Some (set_phase j J (PDone OCancelledLarge) s (sys_reg s))
          else None
      | _ => None
      end
  end.

Fixpoint run (s : sys) (tr : list action) : option sys :=
  match tr with
  | [] => Some s
  | a :: tr' => s' ← step s a; run s' tr'
  end.

Definition init : sys :=
  {| sys_reg := {| activeRequests := ∅; ctx_done := ∅ |}; sys_jobs := ∅; sys_next := 0 |}.

Definition phase_of (s : sys) (j : nat) : option phase := job_phase <$> sys_jobs s !! j.

(** The job that performs an action ([None] for an arrival). *)
Definition actor (a : action) : option nat :=
  match a with
  | AArrive _ _ => None
  | ASupersede j | ARegister j | AStore j _ | AFinish j | AWake j => Some j
  end.

(* ------------------------------------------------------------------ *)
(** ** Invariant and sample executions *)

(** Well-formed states: request numbers below [sys_next] are the only ones
    used, and a registered context belongs to a request of that key. *)
Definition wf (s : sys) : Prop :=
  (∀ j, is_Some (sys_jobs s !! j) → (j < sys_next s)%nat) ∧
  (∀ k c, activeRequests (sys_reg s) !! k = Some c →
     ∃ Jc, sys_jobs s !! c = Some Jc ∧ job_key Jc = k).

(** Request 0 arrives first but runs its supersede step only after request 1
    (size 3000) has registered. *)
Definition trace_late_prior : list action :=
  [AArrive "10.0.0.7:40001" "10"; AArrive "10.0.0.7:40002" "3000";
   ASupersede 1; ARegister 1; ASupersede 0; AWake 1].

(** Two requests from the same client, the second arriving before the
    first one's supersede step: neither sees the other registered, and
    both report success. *)
Definition trace_race : list action :=
  [AArrive "10.0.0.7:40001" "10"; AArrive "10.0.0.7:40002" "10";
   ASupersede 0; ASupersede 1; ARegister 0; ARegister 1;
   AStore 0 true; AStore 1 true; AFinish 0; AFinish 1].

(** Request 0 is registered and storing when request 1 arrives. *)
Definition trace_superseded : list action :=
  [AArrive "10.0.0.7:40001" "10"; ASupersede 0; ARegister 0; AStore 0 true;
   AArrive "10.0.0.7:40002" "10"].

(** A single request running to success. *)
Definition trace_single : list action :=
  [AArrive "10.0.0.7:40001" "10"; ASupersede 0; ARegister 0; AStore 0 true; AFinish 0].

(** The state reached by a run (the initial state if the run is stuck). *)
Definition state_of (s : option sys) : sys := default init s.

(** A request has run [activeRequests[ip] = cancel] once its goroutine is
    past [PSuperseded]. *)
Definition registered (p : phase) : bool :=
  match p with PArrived | PSuperseded => false | _ => true end.

(** Invariant of reachable states: numbering, and the registry holding
    only live contexts of requests that registered under that key; a
    cancelled context belongs to a registered request, and another request
    of the same key has passed its supersede step; a request reporting a
    cancellation has a cancelled context. *)
Definition inv (s : sys) : Prop :=
  (∀ j, is_Some (sys_jobs s !! j) → (j < sys_next s)%nat) ∧
  (∀ k c, activeRequests (sys_reg s) !! k = Some c →
     (c ∉ ctx_done (sys_reg s))
     ∧ ∃ Jc, sys_jobs s !! c = Some Jc ∧ job_key Jc = k ∧ registered (job_phase Jc) = true) ∧
  (∀ c, c ∈ ctx_done (sys_reg s) →
     ∃ Jc, sys_jobs s !! c = Some Jc ∧ registered (job_phase Jc) = true
       ∧ ∃ j' J', j' ≠ c ∧ sys_jobs s !! j' = Some J' ∧ job_key J' = job_key Jc
                  ∧ job_phase J' ≠ PArrived) ∧
  (∀ j J, sys_jobs s !! j = Some J →
     job_phase J = PDone OCancelled ∨ job_phase J = PDone OCancelledLarge →
     j ∈ ctx_done (sys_reg s)).

(** The events that write to the database. *)
Definition is_store (ev : event) : bool :=
  match ev with EvStore _ _ => true | _ => false end.

(* ------------------------------------------------------------------ *)
(** ** The [requests] table, [getRequestInfo] and [allValues] *)

(** A row of [requests] as [getRequestInfo] scans it; [created_at] is
    kept already formatted with the layout ["2006-01-02 15:04:05"]. *)
Record Requests := {
  req_id : nat;
  req_ip : string;
  req_matrix_size : Z;
  req_created_at : string
}.

(** The table with its [SERIAL] counter (the next [id] to hand out). *)
Record db_state := { db_rows : list Requests; db_serial : nat }.

Definition db_empty : db_state := {| db_rows := []; db_serial := 1 |}.

(** A successful [INSERT INTO requests (ip, matrix_size) VALUES ($1, $2)];
    [now n] is the [CURRENT_TIMESTAMP] default of the insert that gets
    id [n]. *)
Definition storeRequestInfo (now : nat → string) (ip : string) (matrixSize : Z)
    (d : db_state) : db_state :=
  {| db_rows := db_rows d ++ [{| req_id := db_serial d; req_ip := ip;
                                 req_matrix_size := matrixSize;
                                 req_created_at := now (db_serial d) |}];
     db_serial := S (db_serial d) |}.

(** [ORDER BY id]. *)
Definition row_le (r1 r2 : Requests) : Prop := (req_id r1 ≤ req_id r2)%nat.

#[global] Instance row_le_dec : RelDecision row_le :=
  λ r1 r2, decide (req_id r1 ≤ req_id r2)%nat.

(** [getRequestInfo(ip, page, pageSize)]:
    [SELECT * FROM requests WHERE IP = $1 ORDER BY id]; the offset is
    commented out and [page], [pageSize] are not used. *)
Definition getRequestInfo (d : db_state) (ip : string) (page pageSize : Z) : list Requests :=
  merge_sort row_le (filter (λ r, req_ip r = ip) (db_rows d)).

Definition tab : string := String.String (byte 9) String.EmptyString.
Definition dq : string := String.String (byte 34) String.EmptyString.

Fixpoint tabs (n : nat) : string :=
  match n with O => "" | S n' => tab +:+ tabs n' end.

Definition table_head : string :=
  "<table class=" +:+ dq +:+ "table" +:+ dq +:+ " ; color: black;" +:+ dq +:+ ">" +:+ nl
  +:+ "    <thead>" +:+ nl
  +:+ "        <tr>" +:+ nl
  +:+ "            <th>ID</th>" +:+ nl
  +:+ "            <th>IP</th>" +:+ nl
  +:+ "            <th>Size</th>" +:+ nl
  +:+ "            <th>Created At</th>" +:+ nl
  +:+ "        </tr>" +:+ nl
  +:+ "    </thead>" +:+ nl
  +:+ "    <tbody>".

(** The [fmt.Sprintf] of one table row. *)
Definition row_html (r : Requests) : string :=
  nl +:+ tabs 4 +:+ "<tr>"
  +:+ nl +:+ tabs 5 +:+ "<td>" +:+ format_int (Z.of_nat (req_id r)) +:+ "</td>"
  +:+ nl +:+ tabs 5 +:+ "<td>" +:+ req_ip r +:+ "</td>"
  +:+ nl +:+ tabs 5 +:+ "<td>" +:+ format_int (req_matrix_size r) +:+ "</td>"
  +:+ nl +:+ tabs 5 +:+ "<td>" +:+ req_created_at r +:+ "</td>"
  +:+ nl +:+ tabs 4 +:+ "</tr>".

(** Query parameter parsing of [allValues]: defaults 1 and 10, replaced
    by any value [Atoi] accepts. *)
Definition allValues_params (page pageSize : string) : Z * Z :=
  let currentPage :=
    if decide (page ≠ "") then
      let '(p, err) := Atoi page in if err_nil err then p else 1
    else 1 in
  let currentPageSize :=
    if decide (pageSize ≠ "") then
      let '(ps, err) := Atoi pageSize in if err_nil err then ps else 10
    else 10 in
  (currentPage, currentPageSize).

Inductive response :=
  | RespError (msg : string) (code : Z)
  | RespHtml (body : string).

(** [allValues]; [query_ok] is whether [db.Query] and the row scans
    succeed. *)
Definition allValues (d : db_state) (query_ok : bool) (remoteAddr page pageSize : string)
    : response :=
  let '(currentPage, currentPageSize) := allValues_params page pageSize in
  let ip := extractIP remoteAddr in
  if negb query_ok then RespError "Unable to fetch data" 500
  else
    let requests := getRequestInfo d ip currentPage currentPageSize in
    RespHtml (foldl (λ acc r, acc +:+ row_html r) table_head requests +:+ "</tbody></table>").

(** The database effect of one handler run: its [storeRequestInfo] call
    inserts a row when the write succeeds ([ok]). *)
Definition apply_event (now : nat → string) (ok : bool) (d : db_state) (ev : event) : db_state :=
  match ev with
  | EvStore ip n => if ok then storeRequestInfo now ip n d else d
  | _ => d
  end.

Definition with_store (e : env) (ok : bool) : env :=
  {| env_store_ok := ok; env_rand_a := env_rand_a e; env_rand_b := env_rand_b e;
     env_row_done := env_row_done e; env_post_done := env_post_done e; env_ms := env_ms e |}.

(** Requests [(remoteAddr, size, write succeeded)] served one after the
    other by the v2 handler, starting from table [d]. *)
Definition serve (now : nat → string) (e : env) (d : db_state)
    (reqs : list (string * string * bool)) : db_state :=
  foldl (λ d q, foldl (apply_event now q.2) d (handler (with_store e q.2) q.1.1 q.1.2)) d reqs.

(* ------------------------------------------------------------------ *)
(** ** Start-up: [main] *)

(** What [main] observes from outside: the answer of
    [checkDatabaseExists] ([None] for an error) and whether
    [createDatabase], [sql.Open] and [migrate] succeed. *)
Record boot_env := {
  be_exists : option bool;
  be_create_ok : bool;
  be_open_ok : bool;
  be_migrate_ok : bool
}.

Inductive boot_event :=
  | BPrintln (args : list string)
  | BCheckExists (dbName username host password : string)
  | BCreateDatabase (dbName username password : string)
  | BOpen (connStr : string)
  | BMigrate
  | BTraceStart
  | BHandle (pattern : string)
  | BListen (addr : string)
  | BPrint (msg : string).

(** [main] after the database exists: open, migrate, register the routes,
    serve. *)
Definition main_serve (be : boot_env) (connStr : string) : list boot_event :=
  BOpen connStr ::
  if negb (be_open_ok be) then [BPrint "Failed to connect to database:"]
  else BPrintln ["db"] :: BMigrate ::
       if negb (be_migrate_ok be) then [BPrint "Migration failed:"]
       else [BTraceStart; BHandle "/static/"; BHandle "/cpu-intensive"; BHandle "/all-values";
             BHandle "/"; BPrint ("Starting server on port " +:+ format_int 8080 +:+ nl);
             BListen (":" +:+ format_int 8080)].

(** [main] of [concurrency/v2/main.go], with the four environment
    variables read. *)
Definition main (be : boot_env) (username password dbName host : string) : list boot_event :=
  let connStr := "user=" +:+ username +:+ " dbname=" +:+ dbName +:+ " password=" +:+ password
                 +:+ " host=" +:+ host +:+ " sslmode=disable" in
  [BPrintln [username; password; dbName; host]; BCheckExists dbName username host password] ++
  match be_exists be with
  | None => [BPrint "Error checking database existence:"]
  | Some true => main_serve be connStr
  | Some false =>
      BCreateDatabase dbName username password ::
      if be_create_ok be
      then BPrint ("Database " +:+ dbName +:+ " created successfully." +:+ nl) :: main_serve be connStr
      else [BPrint "Error creating database:"]
  end.

(* ================================================================== *)
(** * Properties *)

Example mult_2x2 :
  multiplyMatricesParallel never_done [[1; 2]; [3; 4]] [[5; 6]; [7; 8]] 2
  = [[19; 22]; [43; 50]].
Proof. reflexivity. Qed.

Example mult_2x2_cancel_row1_col1 :
  multiplyMatricesParallel (λ i j, bool_decide (i = 1%nat ∧ j = 1%nat))
    [[1; 2]; [3; 4]] [[5; 6]; [7; 8]] 2
  = [[19; 22]; [43; 0]].
Proof. reflexivity. Qed.

(* ------------------------------------------------------------------ *)
(** ** Arithmetic of [wrap64] *)

Lemma wrap64_add_r x y : wrap64 (x + wrap64 y) = wrap64 (x + y).
Proof.
  unfold wrap64, int_modulus, int_half.
  replace (x + ((y + 2 ^ 63) mod 2 ^ 64 - 2 ^ 63) + 2 ^ 63)
    with (x + (y + 2 ^ 63) mod 2 ^ 64) by lia.
  rewrite Zplus_mod_idemp_r. f_equal. f_equal. lia.
Qed.

Lemma wrap64_add_l x y : wrap64 (wrap64 x + y) = wrap64 (x + y).
Proof. rewrite Z.add_comm, wrap64_add_r. f_equal. lia. Qed.

(** The accumulation loop computes the wrapped exact sum. *)
Lemma inner_k_sum a b row j fuel : ∀ k acc,
  inner_k a b row j k fuel (wrap64 acc)
  = wrap64 (acc + foldr Z.add 0 (map (λ k', get a row k' * get b k' j) (seq k fuel))).
Proof.
  induction fuel as [|f IH]; intros k acc; simpl.
  - f_equal. lia.
  - rewrite wrap64_add_r, wrap64_add_l, IH. f_equal. lia.
Qed.

Lemma inner_k_dot a b row j size :
  inner_k a b row j 0 size 0 = wrap64 (dot a b row j size).
Proof.
  pose proof (inner_k_sum a b row j size 0 0) as H. exact H.
Qed.

Lemma fold_left_sum a b i j l : ∀ acc,
  fold_left (λ acc k, wrap64 (acc + wrap64 (get a i k * get b k j))) l (wrap64 acc)
  = wrap64 (acc + foldr Z.add 0 (map (λ k, get a i k * get b k j) l)).
Proof.
  induction l as [|k l IH]; intros acc; simpl.
  - f_equal. lia.
  - rewrite wrap64_add_r, wrap64_add_l, IH. f_equal. lia.
Qed.

(* ------------------------------------------------------------------ *)
(** ** One row task *)

(** Cell [c] after the column loop from [j] with [fuel] columns: cells
    outside [j, j+fuel) are untouched; a cell inside is computed exactly
    when none of the polls before columns [j..c] saw the signal. *)
Lemma multiplyRow_cols_lookup done a b row size fuel : ∀ j (r : list Z) c,
  (j + fuel ≤ length r)%nat →
  multiplyRow_cols done a b row size j fuel r !! c
  = if decide (j ≤ c < j + fuel)%nat then
      (if existsb done (seq j (S (c - j))) then r !! c
       else Some (inner_k a b row c 0 size (default 0 (r !! c))))
    else r !! c.
Proof.
  induction fuel as [|f IH]; intros j r c Hlen; simpl.
  - case_decide; [lia | done].
  - destruct (done j) eqn:Hd.
    + case_decide as Hc; [|done]. simpl; rewrite ?Hd; done.
    + rewrite IH by (rewrite length_insert; lia).
      destruct (decide (c = j)) as [->|Hcj].
      * rewrite decide_False by lia. rewrite decide_True by lia.
        replace (j - j)%nat with 0%nat by lia. simpl; rewrite ?Hd.
        rewrite list_lookup_insert_eq by lia. done.
      * rewrite list_lookup_insert_ne by done.
        case_decide as H1; case_decide as H2; try lia; [|done].
        replace (c - j)%nat with (S (c - S j)) by lia.
        simpl; rewrite ?Hd; simpl; done.
Qed.

(** Cell [c] of row [i] of the parallel product, for every schedule. *)
Lemma multiplyMatricesParallel_lookup done a b size i c :
  (i < size)%nat → (c < size)%nat →
  multiplyMatricesParallel done a b size !! i ≫= (.!! c)
  = Some (if existsb (done i) (seq 0 (S c)) then 0 else wrap64 (dot a b i c size)).
Proof.
  intros Hi Hc. unfold multiplyMatricesParallel, multiplyRow.
  rewrite list_lookup_fmap, lookup_seq_lt by lia.
  destruct (existsb (done i) (seq 0 (S c))) eqn:He;
    cbn [fmap option_fmap option_map mbind option_bind];
    rewrite multiplyRow_cols_lookup by (rewrite length_replicate; lia);
    rewrite decide_True by lia; rewrite Nat.sub_0_r, Nat.add_0_l, He;
    rewrite lookup_replicate_2 by lia; [done|].
  cbn [default]. by rewrite inner_k_dot.
Qed.

Lemma existsb_seq_false (f : nat → bool) s n :
  (∀ j, (s ≤ j < s + n)%nat → f j = false) → existsb f (seq s n) = false.
Proof.
  revert s. induction n as [|n IH]; intros s Hf; [done|].
  simpl. rewrite Hf by lia. apply IH. intros j Hj. apply Hf. lia.
Qed.

Lemma existsb_seq_true (f : nat → bool) s n j :
  (s ≤ j < s + n)%nat → f j = true → existsb f (seq s n) = true.
Proof.
  intros Hj Hf. apply existsb_exists. exists j. split; [|done].
  apply in_seq. lia.
Qed.

(** A row task that never sees the signal computes the whole row. *)
Lemma multiplyRow_never_done a b i size :
  multiplyRow (λ _, false) a b i size (replicate size 0)
  = map (λ j, wrap64 (dot a b i j size)) (seq 0 size).
Proof.
  apply list_eq. intros c. unfold multiplyRow.
  rewrite multiplyRow_cols_lookup by (rewrite length_replicate; lia).
  rewrite list_lookup_fmap.
  case_decide as Hc.
  - rewrite existsb_seq_false by done.
    rewrite lookup_replicate_2, lookup_seq_lt by lia. cbn. by rewrite inner_k_dot.
  - rewrite (proj1 (lookup_replicate_None _ _ _)) by lia.
    rewrite lookup_seq_ge by lia. done.
Qed.

(** The reference triple loop computes the wrapped exact dot product. *)
Lemma reference_product_dot a b size :
  reference_product a b size
  = map (λ i, map (λ j, wrap64 (dot a b i j size)) (seq 0 size)) (seq 0 size).
Proof.
  unfold reference_product. apply map_ext. intros i. apply map_ext. intros j.
  exact (fold_left_sum a b i j (seq 0 size) 0).
Qed.

(** C1: if the signal is never triggered, the parallel multiplier returns
    the N×N matrix with [R[i][j] = Σ_k A[i][k]·B[k][j]] computed in native
    64-bit [int] arithmetic (wrapped, no overflow check); this is exactly
    the result of the sequential reference triple loop. *)
Theorem multiplyMatricesParallel_correct (a b : matrix) (N : nat) :
  multiplyMatricesParallel never_done a b N
    = map (λ i, map (λ j, wrap64 (dot a b i j N)) (seq 0 N)) (seq 0 N)
  ∧ multiplyMatricesParallel never_done a b N = reference_product a b N.
Proof.
  assert (Hm : multiplyMatricesParallel never_done a b N
    = map (λ i, map (λ j, wrap64 (dot a b i j N)) (seq 0 N)) (seq 0 N)).
  { unfold multiplyMatricesParallel, never_done. apply map_ext. intros i.
    apply multiplyRow_never_done. }
  split; [done|]. by rewrite Hm, reference_product_dot.
Qed.

(** C7: every row task polls the signal once before each column.  If the
    first poll of row [i] that sees the signal triggered is the one before
    column [j0], the columns before [j0] hold their full dot products and
    every column from [j0] on keeps its zero initial value. *)
Theorem multiplyRow_cancel_leaves_zeros done (a b : matrix) (N i j0 : nat) :
  (i < N)%nat → (j0 < N)%nat →
  (∀ j, (j < j0)%nat → done i j = false) → done i j0 = true →
  (∀ c, (c < j0)%nat →
     multiplyMatricesParallel done a b N !! i ≫= (.!! c) = Some (wrap64 (dot a b i c N)))
  ∧ (∀ c, (j0 ≤ c < N)%nat →
     multiplyMatricesParallel done a b N !! i ≫= (.!! c) = Some 0).
Proof.
  intros Hi Hj0 Hbefore Hat. split.
  - intros c Hc. rewrite multiplyMatricesParallel_lookup by lia.
    rewrite existsb_seq_false; [done|]. intros j Hj. apply Hbefore. lia.
  - intros c Hc. rewrite multiplyMatricesParallel_lookup by lia.
    rewrite (existsb_seq_true _ _ _ j0); [done| lia | done].
Qed.

Lemma multiplyRow_cancel_leaves_zeros_witness :
  multiplyMatricesParallel (λ i j, bool_decide (i = 1%nat ∧ j = 1%nat))
      [[1; 2]; [3; 4]] [[5; 6]; [7; 8]] 2 !! 1%nat ≫= (.!! 0%nat) = Some 43
  ∧ multiplyMatricesParallel (λ i j, bool_decide (i = 1%nat ∧ j = 1%nat))
      [[1; 2]; [3; 4]] [[5; 6]; [7; 8]] 2 !! 1%nat ≫= (.!! 1%nat) = Some 0.
Proof.
  destruct (multiplyRow_cancel_leaves_zeros (λ i j, bool_decide (i = 1%nat ∧ j = 1%nat))
              [[1; 2]; [3; 4]] [[5; 6]; [7; 8]] 2 1 1) as [H1 H2].
  - lia.
  - lia.
  - intros j Hj. apply bool_decide_eq_false. lia.
  - reflexivity.
  - split; [apply (H1 0%nat); lia | apply (H2 1%nat); lia].
Defined.

(* ------------------------------------------------------------------ *)
(** ** The interleaving semantics: general facts *)

Lemma set_phase_lookup j J p s r c :
  sys_jobs (set_phase j J p s r) !! c
  = if decide (j = c) then Some {| job_key := job_key J; job_size := job_size J; job_phase := p |}
    else sys_jobs s !! c.
Proof. unfold set_phase. simpl. by rewrite lookup_insert. Qed.

(** Every step other than an arrival is one of the five, on a request
    [j] that exists, and rewrites only that request's phase. *)
Lemma step_inv s a s' :
  step s a = Some s' →
  (∃ addr sz, a = AArrive addr sz ∧ s' =
     {| sys_reg := sys_reg s;
        sys_jobs := <[sys_next s := {| job_key := extractIP addr; job_size := sz;
                                       job_phase := PArrived |}]> (sys_jobs s);
        sys_next := S (sys_next s) |}) ∨
  (∃ j J p r, actor a = Some j ∧ sys_jobs s !! j = Some J ∧ s' = set_phase j J p s r ∧
     (r = sys_reg s ∨
      (a = ASupersede j ∧ job_phase J = PArrived ∧ p = PSuperseded ∧
       r = cancelPreviousRequest (job_key J) (sys_reg s)) ∨
      (a = ARegister j ∧ job_phase J = PSuperseded ∧
       p = (if 2000 <? resolve_size (job_size J) then PGate else PStore (resolve_size (job_size J))) ∧
       r = registerRequest (job_key J) j (sys_reg s)))).
Proof.
  destruct a as [addr sz|j|j|j ok|j|j]; simpl; intros Hs.
  - left. injection Hs as <-. eauto.
  - right. destruct (sys_jobs s !! j) as [J|] eqn:HJ; [|done]. simpl in Hs.
    destruct (job_phase J) eqn:Hp; try done. injection Hs as <-.
    eexists _, _, _, _. split; [done|]. split; [done|]. split; [done|]. right. left. done.
  - right. destruct (sys_jobs s !! j) as [J|] eqn:HJ; [|done]. simpl in Hs.
    destruct (job_phase J) eqn:Hp; try done. injection Hs as <-.
    eexists _, _, _, _. split; [done|]. split; [done|]. split; [done|]. right. right. done.
  - right. destruct (sys_jobs s !! j) as [J|] eqn:HJ; [|done]. simpl in Hs.
    destruct (job_phase J) eqn:Hp; try done. injection Hs as <-. eauto 10.
  - right. destruct (sys_jobs s !! j) as [J|] eqn:HJ; [|done]. simpl in Hs.
    destruct (job_phase J) eqn:Hp; try done. injection Hs as <-. eauto 10.
  - right. destruct (sys_jobs s !! j) as [J|] eqn:HJ; [|done]. simpl in Hs.
    destruct (job_phase J) eqn:Hp; try done.
    case_bool_decide; [|done]. injection Hs as <-. eauto 10.
Qed.

Lemma step_next s a s' : step s a = Some s' → (sys_next s ≤ sys_next s')%nat.
Proof.
  intros Hs. destruct (step_inv _ _ _ Hs) as [(addr & sz & -> & ->)|(j & J & p & r & _ & _ & -> & _)];
    simpl; lia.
Qed.

Lemma step_ctx_done_mono s a s' : step s a = Some s' → ctx_done (sys_reg s) ⊆ ctx_done (sys_reg s').
Proof.
  intros Hs. destruct (step_inv _ _ _ Hs) as [(addr & sz & -> & ->)|(j & J & p & r & _ & _ & -> & Hr)];
    simpl; [done|].
  destruct Hr as [->|[(_ & _ & _ & ->)|(_ & _ & _ & ->)]]; [done| |done].
  unfold cancelPreviousRequest. destruct (_ !! _); simpl; set_solver.
Qed.

(** Keys never change: a request keeps the key of its arrival. *)
Lemma step_key s a s' c Jc :
  wf s → step s a = Some s' → sys_jobs s !! c = Some Jc →
  ∃ Jc', sys_jobs s' !! c = Some Jc' ∧ job_key Jc' = job_key Jc.
Proof.
  intros [Hnext _] Hs Hc. destruct (step_inv _ _ _ Hs) as [(addr & sz & -> & ->)|(j & J & p & r & _ & HJ & -> & _)].
  - simpl. rewrite lookup_insert_ne; [eauto|].
    intros Heq. specialize (Hnext c ltac:(by eexists)). lia.
  - rewrite set_phase_lookup. case_decide; subst; [|eauto].
    rewrite HJ in Hc. injection Hc as <-. eauto.
Qed.

Lemma step_wf s a s' : wf s → step s a = Some s' → wf s'.
Proof.
  intros Hwf Hs. pose proof Hwf as [Hnext Hreg].
  destruct (step_inv _ _ _ Hs) as [(addr & sz & -> & ->)|(j & J & p & r & Ha & HJ & -> & Hr)].
  - split; simpl.
    + intros j [x Hx]. rewrite lookup_insert in Hx. case_decide; [lia|].
      assert (j < sys_next s)%nat by (apply Hnext; by eexists). lia.
    + intros k c Hk. destruct (Hreg k c Hk) as (Jc & HJc & <-).
      rewrite lookup_insert_ne; [eauto|]. intros Heq.
      specialize (Hnext c ltac:(by eexists)). lia.
  - assert (Hkeys : ∀ c Jc, sys_jobs s !! c = Some Jc →
        ∃ Jc', sys_jobs (set_phase j J p s r) !! c = Some Jc' ∧ job_key Jc' = job_key Jc).
    { intros c Jc Hc. rewrite set_phase_lookup. case_decide; subst; [|eauto].
      rewrite HJ in Hc. injection Hc as <-. eauto. }
    split.
    + intros c [x Hx]. simpl. rewrite set_phase_lookup in Hx. case_decide; subst.
      * apply Hnext. by eexists.
      * apply Hnext. by eexists.
    + intros k c Hk. simpl in Hk.
      destruct Hr as [->|[(_ & _ & _ & ->)|(_ & _ & _ & ->)]].
      * destruct (Hreg k c Hk) as (Jc & HJc & <-). eauto.
      * unfold cancelPreviousRequest in Hk.
        destruct (activeRequests (sys_reg s) !! job_key J) eqn:Hold; simpl in Hk.
        -- rewrite lookup_delete in Hk. case_decide; [done|].
           destruct (Hreg k c Hk) as (Jc & HJc & <-). eauto.
        -- destruct (Hreg k c Hk) as (Jc & HJc & <-). eauto.
      * simpl in Hk. rewrite lookup_insert in Hk. case_decide as Hkk.
        -- injection Hk as <-. subst k. rewrite set_phase_lookup, decide_True by done.
           eexists. split; [done|]. done.
        -- destruct (Hreg k c Hk) as (Jc & HJc & <-). eauto.
Qed.

Lemma run_wf s tr s' : wf s → run s tr = Some s' → wf s'.
Proof.
  revert s. induction tr as [|a tr IH]; intros s Hwf Hrun; simpl in Hrun.
  - by injection Hrun as <-.
  - destruct (step s a) as [s1|] eqn:Hs; [|done]. simpl in Hrun.
    eapply IH; [|done]. by eapply step_wf.
Qed.

Lemma init_wf : wf init.
Proof. split; simpl; intros *; rewrite ?lookup_empty; [intros [? ?]|]; done. Qed.

Lemma reachable_wf tr s : run init tr = Some s → wf s.
Proof. intros Hrun. eapply run_wf; [apply init_wf|done]. Qed.

(** Only a supersede step cancels a context, and only a context registered
    under the key of the request that performs it. *)
Lemma step_cancels_same_key s a s' c :
  wf s → step s a = Some s' →
  c ∈ ctx_done (sys_reg s') → c ∉ ctx_done (sys_reg s) →
  ∃ j J Jc, a = ASupersede j ∧ sys_jobs s !! j = Some J ∧
    activeRequests (sys_reg s) !! job_key J = Some c ∧
    sys_jobs s !! c = Some Jc ∧ job_key Jc = job_key J.
Proof.
  intros [_ Hreg] Hs Hin Hout.
  destruct (step_inv _ _ _ Hs) as [(addr & sz & -> & ->)|(j & J & p & r & Ha & HJ & -> & Hr)];
    simpl in Hin; [done|].
  destruct Hr as [->|[(-> & _ & _ & ->)|(_ & _ & _ & ->)]]; [done| |done].
  unfold cancelPreviousRequest in Hin.
  destruct (activeRequests (sys_reg s) !! job_key J) as [c'|] eqn:Hold; simpl in Hin; [|done].
  assert (c = c') as -> by set_solver.
  destruct (Hreg _ _ Hold) as (Jc & HJc & Hk). eauto 10.
Qed.

(** C6: [cancelPreviousRequest(key)] triggers and removes the entry of [key]
    exactly when there is one, does nothing otherwise, and leaves the entry
    of every other key alone; in every reachable state of the server, a
    context is only ever cancelled by a request of its own key. *)
Theorem cancelPreviousRequest_frame (ip : string) (st : reg_state) :
  (∀ c, activeRequests st !! ip = Some c →
     cancelPreviousRequest ip st
     = {| activeRequests := delete ip (activeRequests st); ctx_done := {[c]} ∪ ctx_done st |})
  ∧ (activeRequests st !! ip = None → cancelPreviousRequest ip st = st)
  ∧ (∀ ip', ip' ≠ ip →
       activeRequests (cancelPreviousRequest ip st) !! ip' = activeRequests st !! ip')
  ∧ (∀ tr s a s' c, run init tr = Some s → step s a = Some s' →
       c ∈ ctx_done (sys_reg s') → c ∉ ctx_done (sys_reg s) →
       ∃ j J Jc, a = ASupersede j ∧ sys_jobs s !! j = Some J ∧
         sys_jobs s !! c = Some Jc ∧ job_key Jc = job_key J).
Proof.
  unfold cancelPreviousRequest. split; [|split; [|split]].
  - intros c Hc. by rewrite Hc.
  - intros Hn. by rewrite Hn.
  - intros ip' Hne. destruct (activeRequests st !! ip); [|done].
    simpl. by rewrite lookup_delete_ne.
  - intros tr s a s' c Hrun Hs Hin Hout.
    destruct (step_cancels_same_key s a s' c (reachable_wf _ _ Hrun) Hs Hin Hout)
      as (j & J & Jc & ? & ? & _ & ? & ?). eauto 10.
Qed.

Lemma cancelPreviousRequest_frame_witness :
  (∃ s s', run init (take 4 trace_late_prior) = Some s ∧ step s (ASupersede 0) = Some s' ∧
     ∃ j J Jc, ASupersede 0 = ASupersede j ∧ sys_jobs s !! j = Some J ∧
       sys_jobs s !! 1%nat = Some Jc ∧ job_key Jc = job_key J)
  ∧ cancelPreviousRequest "10.0.0.7" {| activeRequests := {[ "10.0.0.8" := 3%nat ]}; ctx_done := ∅ |}
    = {| activeRequests := {[ "10.0.0.8" := 3%nat ]}; ctx_done := ∅ |}.
Proof.
  pose proof (cancelPreviousRequest_frame "10.0.0.7"
                {| activeRequests := {[ "10.0.0.8" := 3%nat ]}; ctx_done := ∅ |})
    as (_ & Hnone & _ & Hsys).
  split.
  - eexists _, _. split; [vm_compute; reflexivity|]. split; [vm_compute; reflexivity|].
    eapply (Hsys (take 4 trace_late_prior) _ (ASupersede 0) _ 1%nat).
    + vm_compute. reflexivity.
    + vm_compute. reflexivity.
    + vm_compute. set_solver.
    + vm_compute. set_solver.
  - apply Hnone. vm_compute. reflexivity.
Defined.

(** A cancelled request that has not succeeded yet never succeeds. *)
Lemma step_keeps_no_success s a s' j :
  (j < sys_next s)%nat → j ∈ ctx_done (sys_reg s) →
  (∀ n, phase_of s j ≠ Some (PDone (OSuccess n))) →
  step s a = Some s' →
  (j < sys_next s')%nat ∧ j ∈ ctx_done (sys_reg s') ∧ (∀ n, phase_of s' j ≠ Some (PDone (OSuccess n))).
Proof.
  intros Hlt Hin Hno Hs.
  pose proof (step_next _ _ _ Hs). pose proof (step_ctx_done_mono _ _ _ Hs).
  split; [lia|]. split; [set_solver|].
  unfold phase_of in *. intros n.
  destruct a as [addr sz|c|c|c ok|c|c]; simpl in Hs.
  - injection Hs as <-. simpl. rewrite lookup_insert_ne by lia. apply Hno.
  - destruct (sys_jobs s !! c) as [J|] eqn:HJ; [|done]; simpl in Hs.
    destruct (job_phase J); try done. injection Hs as <-.
    rewrite set_phase_lookup. case_decide; [simpl; congruence|apply Hno].
  - destruct (sys_jobs s !! c) as [J|] eqn:HJ; [|done]; simpl in Hs.
    destruct (job_phase J); try done. injection Hs as <-.
    rewrite set_phase_lookup. case_decide; [simpl; by case_match|apply Hno].
  - destruct (sys_jobs s !! c) as [J|] eqn:HJ; [|done]; simpl in Hs.
    destruct (job_phase J); try done. injection Hs as <-.
    rewrite set_phase_lookup. case_decide; [simpl; by destruct ok|apply Hno].
  - destruct (sys_jobs s !! c) as [J|] eqn:HJ; [|done]; simpl in Hs.
    destruct (job_phase J); try done. injection Hs as <-.
    rewrite set_phase_lookup. destruct (decide (c = j)) as [->|Hcj]; [|apply Hno].
    rewrite bool_decide_eq_true_2 by done. done.
  - destruct (sys_jobs s !! c) as [J|] eqn:HJ; [|done]; simpl in Hs.
    destruct (job_phase J); try done. case_bool_decide; [|done]. injection Hs as <-.
    rewrite set_phase_lookup. case_decide; [done|apply Hno].
Qed.

Lemma run_keeps_no_success tr : ∀ s s' j,
  (j < sys_next s)%nat → j ∈ ctx_done (sys_reg s) →
  (∀ n, phase_of s j ≠ Some (PDone (OSuccess n))) →
  run s tr = Some s' → ∀ n, phase_of s' j ≠ Some (PDone (OSuccess n)).
Proof.
  induction tr as [|a tr IH]; intros s s' j Hlt Hin Hno Hrun; simpl in Hrun.
  - by injection Hrun as <-.
  - destruct (step s a) as [s1|] eqn:Hs; [|done]. simpl in Hrun.
    destruct (step_keeps_no_success s a s1 j Hlt Hin Hno Hs) as (? & ? & ?).
    by eapply IH.
Qed.

(** C2 (counterexample): J1 (request 0) and J2 (request 1) come from the same
    key, J2 is issued before J1 completes, and both report success. *)
Lemma latest_wins_race_counterexample :
  ∃ s, run init trace_race = Some s ∧
    phase_of s 0 = Some (PDone (OSuccess 10)) ∧ phase_of s 1 = Some (PDone (OSuccess 10)) ∧
    (∃ J0 J1, sys_jobs s !! 0%nat = Some J0 ∧ sys_jobs s !! 1%nat = Some J1 ∧
       job_key J0 = job_key J1).
Proof. eexists. split; [vm_compute; reflexivity|]. vm_compute. eauto 10. Qed.

(** C2 (amended): if J2's supersede step runs while the registry still
    holds J1's context for their common key and J1 has not completed, then
    J1 never reports success, whatever happens afterwards; so J1 and J2
    never both report success. *)
Theorem superseded_job_never_succeeds tr0 s s1 tr s2 (j1 j2 : nat) (J1 J2 : job) :
  run init tr0 = Some s →
  sys_jobs s !! j1 = Some J1 → (∀ o, job_phase J1 ≠ PDone o) →
  activeRequests (sys_reg s) !! job_key J1 = Some j1 →
  sys_jobs s !! j2 = Some J2 → job_key J2 = job_key J1 →
  step s (ASupersede j2) = Some s1 → run s1 tr = Some s2 →
  ∀ n, phase_of s2 j1 ≠ Some (PDone (OSuccess n)).
Proof.
  intros Hrun HJ1 Hlive Hreg HJ2 Hkey Hs Hrun2.
  pose proof (reachable_wf _ _ Hrun) as [Hnext _].
  assert (Hlt : (j1 < sys_next s)%nat) by (apply Hnext; by eexists).
  eapply (run_keeps_no_success tr s1 s2 j1); [| | |done].
  - pose proof (step_next _ _ _ Hs). lia.
  - simpl in Hs. rewrite HJ2 in Hs. simpl in Hs.
    destruct (job_phase J2); try done. injection Hs as <-. simpl.
    unfold cancelPreviousRequest. rewrite Hkey, Hreg. simpl. set_solver.
  - intros n. unfold phase_of. simpl in Hs. rewrite HJ2 in Hs. simpl in Hs.
    destruct (job_phase J2); try done. injection Hs as <-.
    rewrite set_phase_lookup. case_decide; [done|]. rewrite HJ1. simpl.
    intros [=]. by apply (Hlive (OSuccess n)).
Qed.

Lemma superseded_job_never_succeeds_witness :
  ∃ s s1 s2 J1 J2,
    run init trace_superseded = Some s ∧
    sys_jobs s !! 0%nat = Some J1 ∧ (∀ o, job_phase J1 ≠ PDone o) ∧
    activeRequests (sys_reg s) !! job_key J1 = Some 0%nat ∧
    sys_jobs s !! 1%nat = Some J2 ∧ job_key J2 = job_key J1 ∧
    step s (ASupersede 1) = Some s1 ∧ run s1 [ARegister 1; AFinish 0] = Some s2 ∧
    phase_of s2 0 = Some (PDone OCancelled) ∧
    (∀ n, phase_of s2 0 ≠ Some (PDone (OSuccess n))).
Proof.
  do 5 eexists.
  split; [vm_compute; reflexivity|]. split; [vm_compute; reflexivity|].
  split; [intros o; vm_compute; discriminate|].
  split; [vm_compute; reflexivity|]. split; [vm_compute; reflexivity|].
  split; [vm_compute; reflexivity|]. split; [vm_compute; reflexivity|].
  split; [vm_compute; reflexivity|]. split; [vm_compute; reflexivity|].
  eapply (superseded_job_never_succeeds trace_superseded _ _ [ARegister 1; AFinish 0] _ 0 1 _ _);
    try (vm_compute; reflexivity).
  intros o. vm_compute. discriminate.
Defined.

(** C3 (counterexample): a single request runs to success; afterwards its
    entry is still in [activeRequests], untriggered, and no newer request
    exists. *)
Lemma registry_entry_outlives_job :
  ∃ s, run init trace_single = Some s ∧
    phase_of s 0 = Some (PDone (OSuccess 10)) ∧
    activeRequests (sys_reg s) !! "10.0.0.7" = Some 0%nat ∧
    (0%nat ∉ ctx_done (sys_reg s)) ∧ sys_next s = 1%nat.
Proof.
  eexists. split; [vm_compute; reflexivity|]. vm_compute.
  split; [done|]. split; [done|]. split; [set_solver|done].
Qed.

(** C3 (amended): a request never cleans up after itself.  A step that is
    not a supersede or register step (in particular every step that ends a
    request) leaves the registry and the cancelled contexts unchanged; an
    entry [k ↦ c] only disappears when a request of key [k] runs
    [cancelPreviousRequest], which triggers [c], or is replaced when a
    request of key [k] registers its own context. *)
Theorem registry_changes_only_on_supersede_or_register s a s' :
  step s a = Some s' →
  ((∀ j, a ≠ ASupersede j) → (∀ j, a ≠ ARegister j) → sys_reg s' = sys_reg s)
  ∧ (∀ k c, activeRequests (sys_reg s) !! k = Some c →
       activeRequests (sys_reg s') !! k ≠ Some c →
       ∃ j J, sys_jobs s !! j = Some J ∧ job_key J = k ∧
         ((a = ASupersede j ∧ c ∈ ctx_done (sys_reg s') ∧ activeRequests (sys_reg s') !! k = None)
          ∨ (a = ARegister j ∧ activeRequests (sys_reg s') !! k = Some j))).
Proof.
  intros Hs.
  destruct (step_inv _ _ _ Hs) as [(addr & sz & -> & ->)|(j & J & p & r & Ha & HJ & -> & Hr)].
  - split; [done|]. intros k c Hk Hk'. simpl in Hk'. congruence.
  - destruct Hr as [->|[(-> & _ & _ & ->)|(-> & _ & _ & ->)]].
    + split; [done|]. intros k c Hk Hk'. simpl in Hk'. congruence.
    + split; [intros H _; by destruct (H j)|].
      intros k c Hk Hk'. simpl in Hk' |- *. unfold cancelPreviousRequest in *.
      destruct (activeRequests (sys_reg s) !! job_key J) as [c'|] eqn:Hold; simpl in Hk' |- *;
        [|congruence].
      rewrite lookup_delete in Hk' |- *. case_decide as Hkk; [|congruence]. subst k.
      exists j, J. split; [done|]. split; [done|]. left.
      rewrite Hold in Hk. injection Hk as <-. split; [done|]. split; [set_solver|done].
    + split; [intros _ H; by destruct (H j)|].
      intros k c Hk Hk'. simpl in Hk' |- *. rewrite lookup_insert in Hk' |- *.
      case_decide as Hkk; [|congruence]. subst k.
      exists j, J. split; [done|]. split; [done|]. right. done.
Qed.

Lemma registry_changes_only_on_supersede_or_register_witness :
  ∃ s s', run init (take 3 trace_single) = Some s ∧ step s (AStore 0 true) = Some s' ∧
    sys_reg s' = sys_reg s.
Proof.
  do 2 eexists. split; [vm_compute; reflexivity|]. split; [vm_compute; reflexivity|].
  eapply (proj1 (registry_changes_only_on_supersede_or_register _ (AStore 0 true) _ _)).
  - intros j. discriminate.
  - intros j. discriminate.
  Unshelve. vm_compute. reflexivity.
Defined.

(** A request blocked at the gate stays there until its own wake-up, which
    needs its context cancelled. *)
Lemma step_gate s a s' j J :
  (j < sys_next s)%nat → sys_jobs s !! j = Some J → job_phase J = PGate →
  step s a = Some s' →
  phase_of s' j = Some PGate
  ∨ (a = AWake j ∧ j ∈ ctx_done (sys_reg s) ∧ phase_of s' j = Some (PDone OCancelledLarge)).
Proof.
  intros Hlt HJ Hp Hs. unfold phase_of.
  destruct a as [addr sz|c|c|c ok|c|c]; simpl in Hs.
  - injection Hs as <-. simpl. rewrite lookup_insert_ne by lia. rewrite HJ; simpl; rewrite Hp. by left.
  - destruct (sys_jobs s !! c) as [Jc|] eqn:HJc; [|done]; simpl in Hs.
    destruct (job_phase Jc) eqn:Hpc; try done. injection Hs as <-.
    rewrite set_phase_lookup. destruct (decide (c = j)) as [->|]; [congruence|].
    rewrite HJ; simpl; rewrite Hp. by left.
  - destruct (sys_jobs s !! c) as [Jc|] eqn:HJc; [|done]; simpl in Hs.
    destruct (job_phase Jc) eqn:Hpc; try done. injection Hs as <-.
    rewrite set_phase_lookup. destruct (decide (c = j)) as [->|]; [congruence|].
    rewrite HJ; simpl; rewrite Hp. by left.
  - destruct (sys_jobs s !! c) as [Jc|] eqn:HJc; [|done]; simpl in Hs.
    destruct (job_phase Jc) eqn:Hpc; try done. injection Hs as <-.
    rewrite set_phase_lookup. destruct (decide (c = j)) as [->|]; [congruence|].
    rewrite HJ; simpl; rewrite Hp. by left.
  - destruct (sys_jobs s !! c) as [Jc|] eqn:HJc; [|done]; simpl in Hs.
    destruct (job_phase Jc) eqn:Hpc; try done. injection Hs as <-.
    rewrite set_phase_lookup. destruct (decide (c = j)) as [->|]; [congruence|].
    rewrite HJ; simpl; rewrite Hp. by left.
  - destruct (sys_jobs s !! c) as [Jc|] eqn:HJc; [|done]; simpl in Hs.
    destruct (job_phase Jc) eqn:Hpc; try done. case_bool_decide as Hdone; [|done].
    injection Hs as <-.
    rewrite set_phase_lookup. destruct (decide (c = j)) as [->|].
    + right. done.
    + rewrite HJ; simpl; rewrite Hp. by left.
Qed.

(** C4 (counterexample): request 1 asks for size 3000; the only other
    request (0, same client) was issued before it, yet its late supersede
    step releases request 1, which reports "cancelled due to large number";
    request 1 did not supersede the earlier request 0 either. *)
Lemma oversize_released_by_earlier_request :
  ∃ s, run init trace_late_prior = Some s ∧ sys_next s = 2%nat ∧
    phase_of s 1 = Some (PDone OCancelledLarge) ∧
    (0%nat ∉ ctx_done (sys_reg s)) ∧ phase_of s 0 = Some PSuperseded.
Proof.
  eexists. split; [vm_compute; reflexivity|]. vm_compute.
  split; [done|]. split; [done|]. split; [set_solver|done].
Qed.

(** C4 (amended): a request whose size parameter parses to a value above
    2000 never generates matrices or multiplies (in both handler versions):
    it runs [cancelPreviousRequest], registers, blocks on its context and
    then writes exactly "Request was cancelled due to large number\n".  In
    the concurrent semantics its register step parks it at the gate; from
    there every step leaves it blocked except its own wake-up, which needs
    its context cancelled; and its context is only cancelled by the
    supersede step of a request of the same key that finds its context
    registered.  If no such step happens it never returns. *)
Theorem oversize_waits_for_cancel (p : string) (v : Z) :
  Atoi p = (v, NoErr) → 2000 < v →
  (∀ e addr,
     handler e addr p = [EvPrintln (extractIP addr); EvSupersede (extractIP addr);
                         EvRegister (extractIP addr); EvAwaitCancel; EvWrite msg_cancelled_large]
     ∧ handler_v1 e addr p = [EvPrintln (extractIP addr); EvSupersede (extractIP addr);
                         EvRegister (extractIP addr); EvAwaitCancel; EvWrite msg_cancelled_large])
  ∧ (∀ s j J s', sys_jobs s !! j = Some J → job_size J = p →
       step s (ARegister j) = Some s' → phase_of s' j = Some PGate)
  ∧ (∀ tr s j J a s', run init tr = Some s → sys_jobs s !! j = Some J → job_phase J = PGate →
       step s a = Some s' →
       phase_of s' j = Some PGate
       ∨ (a = AWake j ∧ j ∈ ctx_done (sys_reg s) ∧ phase_of s' j = Some (PDone OCancelledLarge)))
  ∧ (∀ tr s j J a s', run init tr = Some s → sys_jobs s !! j = Some J →
       step s a = Some s' → (j ∉ ctx_done (sys_reg s)) → j ∈ ctx_done (sys_reg s') →
       ∃ j' J', a = ASupersede j' ∧ sys_jobs s !! j' = Some J' ∧ job_key J' = job_key J ∧
         activeRequests (sys_reg s) !! job_key J = Some j).
Proof.
  intros Hp Hv.
  assert (Hres : resolve_size p = v).
  { unfold resolve_size. rewrite Hp. simpl. by rewrite (proj2 (Z.leb_gt v 0)) by lia. }
  assert (Hgate : (2000 <? v) = true) by (apply Z.ltb_lt; lia).
  split; [|split; [|split]].
  - intros e addr. unfold handler, handler_v1. rewrite Hres, Hp, Hgate. done.
  - intros s j J s' HJ Hsz Hs. simpl in Hs. rewrite HJ in Hs. simpl in Hs.
    destruct (job_phase J); try done. injection Hs as <-. unfold phase_of.
    rewrite set_phase_lookup, decide_True by done. simpl. by rewrite Hsz, Hres, Hgate.
  - intros tr s j J a s' Hrun HJ Hph Hs.
    pose proof (reachable_wf _ _ Hrun) as [Hnext _].
    eapply step_gate; [| done | done | done]. apply Hnext. by eexists.
  - intros tr s j J a s' Hrun HJ Hs Hout Hin.
    destruct (step_cancels_same_key s a s' j (reachable_wf _ _ Hrun) Hs Hin Hout)
      as (j' & J' & Jc & -> & HJ' & Hreg & HJc & Hkey).
    rewrite HJ in HJc. injection HJc as <-. exists j', J'. rewrite Hkey. done.
Qed.

Lemma oversize_waits_for_cancel_witness :
  phase_of (state_of (step (state_of (run init (take 4 trace_late_prior))) (ASupersede 0))) 1
  = Some PGate.
Proof.
  destruct (oversize_waits_for_cancel "3000" 3000) as (_ & _ & Hgate & _).
  - vm_compute. reflexivity.
  - lia.
  - destruct (Hgate (take 4 trace_late_prior) (state_of (run init (take 4 trace_late_prior))) 1%nat
                {| job_key := "10.0.0.7"; job_size := "3000"; job_phase := PGate |} (ASupersede 0)
                (state_of (step (state_of (run init (take 4 trace_late_prior))) (ASupersede 0))))
      as [H|(H & _)].
    + vm_compute. reflexivity.
    + vm_compute. reflexivity.
    + reflexivity.
    + vm_compute. reflexivity.
    + exact H.
    + discriminate H.
Defined.

(* ------------------------------------------------------------------ *)
(** ** [extractIP] *)

Lemma index_byte_lookup (l : list ascii) c i : index_byte l c = Some i → l !! i = Some c.
Proof.
  revert i. induction l as [|x l IH]; intros i; simpl; [done|].
  case_decide as Hx; [intros [= <-]; by subst|].
  destruct (index_byte l c) as [k|] eqn:Hk; simpl; [|done]. intros [= <-]. simpl. by apply IH.
Qed.

Lemma last_index_byte_lookup (l : list ascii) c i : last_index_byte l c = Some i → l !! i = Some c.
Proof.
  unfold last_index_byte. destruct (index_byte (reverse l) c) as [k|] eqn:Hk; simpl; [|done].
  intros [= <-]. apply index_byte_lookup, reverse_lookup_Some in Hk. by destruct Hk.
Qed.

Lemma string_of_app (l1 l2 : list ascii) : string_of (l1 ++ l2) = string_of l1 +:+ string_of l2.
Proof. induction l1 as [|x l1 IH]; simpl; [done|]. unfold string_of in *. simpl. by rewrite IH. Qed.

Lemma drop_lookup_cons {A} (l : list A) n x : l !! n = Some x → drop n l = x :: drop (S n) l.
Proof.
  revert n. induction l as [|y l IH]; intros [|n] Hn; simpl in *; try done.
  - by injection Hn as ->.
  - by apply IH.
Qed.

(** A successful split cuts the address at the colon before the port. *)
Lemma SplitHostPort_bytes_roundtrip hp h p :
  SplitHostPort_bytes hp = Some (h, p) →
  hp = h ++ ":"%char :: p ∨ hp = "["%char :: h ++ "]"%char :: ":"%char :: p.
Proof.
  unfold SplitHostPort_bytes.
  destruct (last_index_byte hp ":"%char) as [i|] eqn:Hi; [|done].
  apply last_index_byte_lookup in Hi.
  case_decide as Hbr.
  - destruct (index_byte hp "]"%char) as [e|] eqn:He; [|done].
    apply index_byte_lookup in He.
    case_decide; [done|]. case_decide as Hei; [|done].
    do 2 (case_decide; [done|]). intros [= <- <-]. right.
    destruct hp as [|c t]; [done|]. simpl in Hbr. injection Hbr as ->.
    destruct e as [|e]; [simpl in He; by injection He|]. simpl in He.
    subst i. simpl in Hi |- *. rewrite Nat.sub_0_r. f_equal.
    rewrite <- (take_drop_middle t e _ He) at 1. f_equal. f_equal.
    by apply drop_lookup_cons.
  - destruct (index_byte (take i hp) ":"%char); [done|].
    do 2 (case_decide; [done|]). intros [= <- <-]. left.
    by rewrite take_drop_middle.
Qed.

(** C10: [extractIP] returns the host when [net.SplitHostPort] succeeds (the
    address is then [host:port] or [[host]:port], so the port is stripped)
    and the whole address when it fails; it is total, and the key is empty
    only for an empty address or an address whose host part is empty. *)
Theorem extractIP_spec (s : string) :
  (∀ h p, SplitHostPort s = Some (h, p) →
     extractIP s = h ∧ (s = h +:+ ":" +:+ p ∨ s = "[" +:+ h +:+ "]:" +:+ p))
  ∧ (SplitHostPort s = None → extractIP s = s)
  ∧ (extractIP s = "" → s = "" ∨ ∃ p, SplitHostPort s = Some ("", p)).
Proof.
  unfold extractIP. split; [|split].
  - intros h p Hs. rewrite Hs. split; [done|].
    unfold SplitHostPort in Hs.
    destruct (SplitHostPort_bytes (bytes_of s)) as [[hb pb]|] eqn:Hb; [|done].
    simpl in Hs. injection Hs as <- <-.
    rewrite <- (String.string_of_list_ascii_of_string s) at 1 2.
    fold (bytes_of s). fold (string_of (bytes_of s)).
    destruct (SplitHostPort_bytes_roundtrip _ _ _ Hb) as [-> | ->]; [left|right].
    + rewrite string_of_app. done.
    + unfold string_of at 1. simpl. fold (string_of (hb ++ "]"%char :: ":"%char :: pb)).
      rewrite string_of_app. done.
  - intros Hs. by rewrite Hs.
  - destruct (SplitHostPort s) as [[h p]|] eqn:Hs; intros He; subst; eauto.
Qed.

Lemma extractIP_spec_witness :
  extractIP "127.0.0.1:54321" = "127.0.0.1" ∧ extractIP "[::1]:8080" = "::1".
Proof.
  split.
  - apply (proj1 (extractIP_spec "127.0.0.1:54321") "127.0.0.1" "54321"). vm_compute. reflexivity.
  - apply (proj1 (extractIP_spec "[::1]:8080") "::1" "8080"). vm_compute. reflexivity.
Defined.

(* ------------------------------------------------------------------ *)
(** ** The handler *)

Lemma resolve_size_pos p : 0 < resolve_size p.
Proof.
  unfold resolve_size. destruct (Atoi p) as [v err].
  destruct (negb (err_nil err)) eqn:He; simpl; [lia|].
  destruct (v <=? 0) eqn:Hv; [lia|]. apply Z.leb_gt in Hv. lia.
Qed.

(** In [concurrency/v2/main.go] an invalid or non-positive size becomes 100
    before the gate, so it is never routed to the gate. *)
Lemma resolve_size_invalid p v err :
  Atoi p = (v, err) → (err ≠ NoErr ∨ v ≤ 0) → resolve_size p = 100.
Proof.
  intros Hp Hbad. unfold resolve_size. rewrite Hp.
  destruct err; simpl; [|done|done].
  destruct Hbad as [Hb|Hb]; [done|]. by rewrite (proj2 (Z.leb_le v 0) Hb).
Qed.

Lemma handler_invalid_size_computes e addr p v err :
  Atoi p = (v, err) → (err ≠ NoErr ∨ v ≤ 0) → env_store_ok e = true →
  handler e addr p
  = [EvPrintln (extractIP addr); EvSupersede (extractIP addr); EvRegister (extractIP addr);
     EvStore (extractIP addr) 100] ++ compute_and_report e 100.
Proof.
  intros Hp Hbad Hok. unfold handler. rewrite (resolve_size_invalid p v err Hp Hbad), Hok.
  done.
Qed.

(** C5 (defect of the unnamed earlier handler): ["99999999999999999999"]
    fails to parse ([Atoi] reports a range error and returns the largest
    [int]); [concurrency/v2/main.go] resolves it to 100, but the earlier
    handler tests the gate on the raw [Atoi] value and parks the request at
    the oversize gate instead of defaulting to 100. *)
Theorem handler_v1_unparsable_size_reaches_gate :
  Atoi "99999999999999999999" = (2 ^ 63 - 1, ErrRange)
  ∧ resolve_size "99999999999999999999" = 100
  ∧ ∀ e addr,
      handler_v1 e addr "99999999999999999999"
      = [EvPrintln (extractIP addr); EvSupersede (extractIP addr); EvRegister (extractIP addr);
         EvAwaitCancel; EvWrite msg_cancelled_large].
Proof.
  split; [vm_compute; reflexivity|]. split; [vm_compute; reflexivity|].
  intros e addr. unfold handler_v1.
  replace (Atoi "99999999999999999999") with (2 ^ 63 - 1, ErrRange) by (vm_compute; reflexivity).
  done.
Qed.

Lemma append_empty_r (x : string) : x +:+ "" = x.
Proof. induction x as [|c x IH]; [done|]. change (String.String c (x +:+ "") = String.String c x). by rewrite IH. Qed.

Lemma body_writes (log : list event) : body log = foldr String.append "" (writes log).
Proof. induction log as [|[] log IH]; simpl; rewrite ?IH; done. Qed.

Lemma writes_app (l1 l2 : list event) : writes (l1 ++ l2) = writes l1 ++ writes l2.
Proof. unfold writes. apply omap_app. Qed.

Lemma writes_map_write {A} (f : A → string) (l : list A) :
  writes (map (λ x, EvWrite (f x)) l) = map f l.
Proof. induction l as [|x l IH]; simpl; [done|]. unfold writes in *. simpl. by rewrite IH. Qed.

Lemma length_multiplyRow_cols done a b row size j fuel (r : list Z) :
  length (multiplyRow_cols done a b row size j fuel r) = length r.
Proof.
  revert j r. induction fuel as [|f IH]; intros j r; simpl; [done|].
  destruct (done j); [done|]. by rewrite IH, length_insert.
Qed.

Lemma compute_and_report_cancelled e n :
  env_post_done e = true → writes (compute_and_report e n) = [msg_cancelled].
Proof. intros Hd. unfold compute_and_report. rewrite Hd. done. Qed.

(** C8: when the final [select] finds the context cancelled, after the
    multiplier returned, the response is exactly "Request was cancelled\n"
    and nothing else is written (no header, no row), in both handler
    versions. *)
Theorem cancelled_after_multiply_no_matrix e addr p :
  env_post_done e = true →
  (resolve_size p ≤ 2000 → env_store_ok e = true →
     EvMultiply (resolve_size p) ∈ handler e addr p
     ∧ writes (handler e addr p) = [msg_cancelled] ∧ body (handler e addr p) = msg_cancelled)
  ∧ (fst (Atoi p) ≤ 2000 →
     writes (handler_v1 e addr p) = [msg_cancelled] ∧ body (handler_v1 e addr p) = msg_cancelled).
Proof.
  intros Hd. split.
  - intros Hn Hok. unfold handler.
    rewrite (proj2 (Z.ltb_ge 2000 (resolve_size p)) Hn), Hok. cbn [negb].
    split; [|split].
    + unfold compute_and_report. rewrite Hd. set_solver.
    + change (writes (compute_and_report e (resolve_size p)) = [msg_cancelled]).
      by apply compute_and_report_cancelled.
    + change (body (compute_and_report e (resolve_size p)) = msg_cancelled).
      rewrite body_writes, compute_and_report_cancelled by done. apply append_empty_r.
  - intros Hn. unfold handler_v1. destruct (Atoi p) as [v err]. simpl in Hn.
    rewrite (proj2 (Z.ltb_ge 2000 v) Hn).
    rewrite body_writes, writes_app, compute_and_report_cancelled by done.
    simpl. split; [done|]. apply append_empty_r.
Qed.

Lemma cancelled_after_multiply_no_matrix_witness :
  let e := {| env_store_ok := true; env_rand_a := λ i j, 1; env_rand_b := λ i j, 2;
              env_row_done := λ i j, bool_decide (1 ≤ j)%nat; env_post_done := true;
              env_ms := 7 |} in
  body (handler e "10.0.0.7:40001" "3") = msg_cancelled
  ∧ body (handler_v1 e "10.0.0.7:40001" "3") = msg_cancelled.
Proof.
  intros e.
  destruct (cancelled_after_multiply_no_matrix e "10.0.0.7:40001" "3") as [Hv2 Hv1].
  - reflexivity.
  - split.
    + apply Hv2; [vm_compute; discriminate | reflexivity].
    + apply Hv1. vm_compute. discriminate.
Defined.

(** C9: a request of resolved size [N] that passes the final check writes
    exactly the header line with [N] and the measured milliseconds, then
    "Resulting Matrix:\n", then one line per row of the [N × N] result
    that [multiplyMatricesParallel] computed from the two generated
    matrices, each row printed by [%v] as a bracketed, space-separated
    list of integers. *)
Theorem handler_success_output e addr p :
  resolve_size p ≤ 2000 → env_store_ok e = true → env_post_done e = false →
  0 < resolve_size p ∧
  ∃ R : matrix,
    R = multiplyMatricesParallel (env_row_done e)
          (generateMatrix (env_rand_a e) (Z.to_nat (resolve_size p)))
          (generateMatrix (env_rand_b e) (Z.to_nat (resolve_size p)))
          (Z.to_nat (resolve_size p))
    ∧ length R = Z.to_nat (resolve_size p)
    ∧ Forall (λ row, length row = Z.to_nat (resolve_size p)) R
    ∧ writes (handler e addr p)
      = [msg_header (resolve_size p) (env_ms e); msg_result_title]
        ++ map (λ row, format_row row +:+ nl) R
    ∧ body (handler e addr p)
      = msg_header (resolve_size p) (env_ms e) +:+ msg_result_title
        +:+ foldr (λ row acc, (format_row row +:+ nl) +:+ acc) "" R.
Proof.
  intros Hn Hok Hd. split; [apply resolve_size_pos|].
  set (N := resolve_size p).
  set (R := multiplyMatricesParallel (env_row_done e)
              (generateMatrix (env_rand_a e) (Z.to_nat N))
              (generateMatrix (env_rand_b e) (Z.to_nat N)) (Z.to_nat N)).
  assert (Hw : writes (handler e addr p)
               = [msg_header N (env_ms e); msg_result_title] ++ map (λ row, format_row row +:+ nl) R).
  { unfold handler. fold N. rewrite (proj2 (Z.ltb_ge 2000 N) Hn), Hok.
    change (writes (compute_and_report e N)
            = [msg_header N (env_ms e); msg_result_title] ++ map (λ row, format_row row +:+ nl) R).
    unfold compute_and_report. rewrite Hd. fold R.
    rewrite writes_app. change (writes [EvGenerate N; EvGenerate N; EvMultiply N]) with (@nil string).
    rewrite writes_app, writes_map_write. done. }
  exists R. split; [done|split; [|split; [|split]]].
  - unfold R, multiplyMatricesParallel. by rewrite length_map, length_seq.
  - unfold R, multiplyMatricesParallel. apply Forall_forall. intros row Hrow.
    apply list_elem_of_In, in_map_iff in Hrow as (i & <- & _).
    unfold multiplyRow. by rewrite length_multiplyRow_cols, length_replicate.
  - exact Hw.
  - rewrite body_writes, Hw. simpl. f_equal. f_equal.
    clear. induction R as [|row R IH]; simpl; [done|]. by rewrite IH.
Qed.

Lemma handler_success_output_witness :
  let e := {| env_store_ok := true; env_rand_a := λ i j, 1; env_rand_b := λ i j, 2;
              env_row_done := λ i j, false; env_post_done := false; env_ms := 7 |} in
  0 < resolve_size "2"
  ∧ body (handler e "10.0.0.7:40001" "2")
    = "Matrix multiplication (size: 2) completed in 7 milliseconds" +:+ nl
      +:+ "Resulting Matrix:" +:+ nl +:+ "[4 4]" +:+ nl +:+ "[4 4]" +:+ nl.
Proof.
  intros e.
  destruct (handler_success_output e "10.0.0.7:40001" "2") as [Hpos _].
  - vm_compute. discriminate.
  - reflexivity.
  - reflexivity.
  - split; [exact Hpos|]. vm_compute. reflexivity.
Defined.

(* ================================================================== *)
(** * Further properties of the code *)

(* ------------------------------------------------------------------ *)
(** ** Multiplier: shape and absence of overflow *)

(** The result is always [size × size], whatever the cancellation pattern. *)
Theorem multiplyMatricesParallel_shape done (a b : matrix) (size : nat) :
  length (multiplyMatricesParallel done a b size) = size
  ∧ Forall (λ row, length row = size) (multiplyMatricesParallel done a b size).
Proof.
  unfold multiplyMatricesParallel. split; [by rewrite length_map, length_seq|].
  apply Forall_forall. intros row Hrow.
  apply list_elem_of_In, in_map_iff in Hrow as (i & <- & _).
  unfold multiplyRow. by rewrite length_multiplyRow_cols, length_replicate.
Qed.

Lemma wrap64_small z : - 2 ^ 63 ≤ z < 2 ^ 63 → wrap64 z = z.
Proof.
  intros Hz. unfold wrap64, int_modulus, int_half.
  rewrite Z.mod_small by lia. lia.
Qed.

Lemma generateMatrix_get rnd (size i j : nat) :
  (i < size)%nat → (j < size)%nat → get (generateMatrix rnd size) i j = rnd i j.
Proof.
  intros Hi Hj. unfold get, generateMatrix.
  rewrite list_lookup_fmap, lookup_seq_lt by lia. simpl.
  rewrite list_lookup_fmap, lookup_seq_lt by lia. done.
Qed.

Lemma dot_bounds (a b : matrix) i j (l : list nat) bound :
  (∀ k, k ∈ l → 0 ≤ get a i k * get b k j ≤ bound) →
  0 ≤ foldr Z.add 0 (map (λ k, get a i k * get b k j) l) ≤ Z.of_nat (length l) * bound.
Proof.
  induction l as [|k l IH]; intros Hb; simpl; [lia|].
  assert (0 ≤ get a i k * get b k j ≤ bound) by (apply Hb; set_solver).
  assert (0 ≤ foldr Z.add 0 (map (λ k, get a i k * get b k j) l) ≤ Z.of_nat (length l) * bound)
    by (apply IH; intros; apply Hb; set_solver).
  lia.
Qed.

(** On the handler's inputs (cells drawn by [rand.Intn(100)], size at most
    2000) the multiplication never overflows: every cell of the result is
    either 0 (column not computed) or the exact sum Σ_k A[i][k]·B[k][j],
    which lies in [0, 9801·size]. *)
Theorem multiply_generated_no_overflow done rndA rndB (size i j : nat) :
  (size ≤ 2000)%nat →
  (∀ r c, 0 ≤ rndA r c < 100) → (∀ r c, 0 ≤ rndB r c < 100) →
  (i < size)%nat → (j < size)%nat →
  let a := generateMatrix rndA size in
  let b := generateMatrix rndB size in
  0 ≤ dot a b i j size ≤ 9801 * Z.of_nat size
  ∧ (multiplyMatricesParallel done a b size !! i ≫= (.!! j) = Some (dot a b i j size)
     ∨ multiplyMatricesParallel done a b size !! i ≫= (.!! j) = Some 0).
Proof.
  intros Hsz HA HB Hi Hj a b.
  assert (Hb : 0 ≤ dot a b i j size ≤ Z.of_nat (length (seq 0 size)) * 9801).
  { apply dot_bounds. intros k Hk. apply list_elem_of_In, in_seq in Hk.
    unfold a, b. rewrite !generateMatrix_get by lia.
    specialize (HA i k). specialize (HB k j). split; [nia|].
    assert (rndA i k ≤ 99) by lia. assert (rndB k j ≤ 99) by lia. nia. }
  rewrite length_seq in Hb. split; [lia|].
  rewrite multiplyMatricesParallel_lookup by done.
  destruct (existsb _ _); [by right|]. left. f_equal. apply wrap64_small. lia.
Qed.

Lemma multiply_generated_no_overflow_witness :
  0 ≤ dot (generateMatrix (λ r c, 99) 3) (generateMatrix (λ r c, 99) 3) 1 2 3 ≤ 9801 * 3.
Proof.
  apply (multiply_generated_no_overflow never_done (λ r c, 99) (λ r c, 99) 3 1 2);
    intros; lia.
Defined.

(* ------------------------------------------------------------------ *)
(** ** [strconv.Atoi] and [%d] *)

Lemma byte_digit_of_digit (k : nat) :
  (k < 10)%nat → byte_digit (byte (48 + k)) = Some (Z.of_nat k).
Proof.
  intros Hk. do 10 (destruct k as [|k]; [reflexivity|]). lia.
Qed.

Lemma byte_digit_range c d : byte_digit c = Some d → 0 ≤ d ≤ 9.
Proof.
  unfold byte_digit. remember ((nat_of_ascii c + 256 - 48) mod 256)%nat as x.
  destruct (Nat.leb_spec x 9); intros [= <-]. lia.
Qed.

Lemma atoi_fast_digits_app l1 l2 m :
  atoi_fast_digits (l1 ++ l2) m = atoi_fast_digits l1 m ≫= atoi_fast_digits l2.
Proof.
  revert m. induction l1 as [|c l1 IH]; intros m; simpl; [done|].
  destruct (byte_digit c); [apply IH|done].
Qed.

Lemma atoi_fast_digits_bounds l m v :
  0 ≤ m → atoi_fast_digits l m = Some v →
  m * 10 ^ Z.of_nat (length l) ≤ v < (m + 1) * 10 ^ Z.of_nat (length l).
Proof.
  revert m. induction l as [|c l IH]; intros m Hm; simpl.
  - intros [= <-]. lia.
  - destruct (byte_digit c) as [d|] eqn:Hd; [|done]. intros Hv.
    apply byte_digit_range in Hd.
    destruct (IH (m * 10 + d)) as [H1 H2]; [lia|done|].
    rewrite Nat2Z.inj_succ, Z.pow_succ_r by lia.
    assert (0 < 10 ^ Z.of_nat (length l)) by (apply Z.pow_pos_nonneg; lia).
    nia.
Qed.

(** [dec_digits] writes a non-empty run of decimal digits whose value is [n]. *)
Lemma dec_digits_spec fuel (n : N) acc :
  (1 ≤ fuel)%nat → (n < 10 ^ N.of_nat fuel)%N →
  ∃ ds, ds ≠ [] ∧ Forall (λ c, is_Some (byte_digit c)) ds
        ∧ bytes_of (dec_digits fuel n acc) = ds ++ bytes_of acc
        ∧ ∀ m, atoi_fast_digits ds m = Some (m * 10 ^ Z.of_nat (length ds) + Z.of_N n).
Proof.
  revert n acc. induction fuel as [|f IH]; intros n acc Hf Hn; [lia|].
  cbn [dec_digits]. assert (Hd : (N.to_nat (n mod 10) < 10)%nat).
  { assert (n mod 10 < 10)%N by (apply N.mod_lt; lia). lia. }
  pose proof (byte_digit_of_digit _ Hd) as Hbd.
  destruct (n <? 10)%N eqn:Hlt.
  - apply N.ltb_lt in Hlt. exists [byte (48 + N.to_nat (n mod 10))].
    split; [done|]. split; [by repeat constructor; rewrite Hbd|]. split; [done|].
    intros m. cbn [atoi_fast_digits]. rewrite Hbd. rewrite N.mod_small by lia.
    cbn [length]. f_equal. lia.
  - apply N.ltb_ge in Hlt.
    destruct (IH (n / 10)%N (String.String (byte (48 + N.to_nat (n mod 10))) acc))
      as (ds & Hne & Hdig & Hb & Hv).
    { destruct f; [simpl in Hn; lia|lia]. }
    { rewrite Nat2N.inj_succ, N.pow_succ_r' in Hn.
      apply N.Div0.div_lt_upper_bound. lia. }
    exists (ds ++ [byte (48 + N.to_nat (n mod 10))]).
    split; [by destruct ds|]. split.
    { apply Forall_app. split; [done|]. repeat constructor. by rewrite Hbd. }
    split; [by rewrite Hb, <- (assoc_L (++))|].
    intros m. rewrite atoi_fast_digits_app, Hv. cbn [mbind option_bind atoi_fast_digits].
    rewrite Hbd. f_equal.
    rewrite length_app. cbn [length]. rewrite Nat.add_1_r, Nat2Z.inj_succ, Z.pow_succ_r by lia.
    rewrite N_nat_Z, N2Z.inj_div, N2Z.inj_mod.
    pose proof (Z.div_mod (Z.of_N n) 10). lia.
Qed.

(** Without overflow, [ParseUint]'s loop computes what the fast loop computes. *)
Lemma parse_uint_loop_digits l m v :
  0 ≤ m → atoi_fast_digits l m = Some v → v ≤ maxUint64 → parse_uint_loop l m = (v, NoErr).
Proof.
  revert m. induction l as [|c l IH]; intros m Hm; simpl; [by intros [= ->]|].
  destruct (byte_digit c) as [d|] eqn:Hd; [|done]. intros Hv Hmax.
  apply byte_digit_range in Hd.
  pose proof (atoi_fast_digits_bounds l (m * 10 + d) v ltac:(lia) Hv) as [Hlo _].
  assert (0 < 10 ^ Z.of_nat (length l)) by (apply Z.pow_pos_nonneg; lia).
  assert (m * 10 + d ≤ v) by nia.
  assert (Hc : maxUint64 / 10 + 1 = 1844674407370955162) by reflexivity.
  assert (Hu : maxUint64 = 18446744073709551615) by reflexivity.
  rewrite Hc. rewrite Hu in *.
  destruct (Z.leb_spec 1844674407370955162 m); [lia|].
  destruct (Z.ltb_spec 18446744073709551615 (m * 10 + d)); [lia|].
  apply IH; [lia|done|lia].
Qed.

Lemma parse_uint_loop_result l m :
  0 ≤ m →
  0 ≤ (parse_uint_loop l m).1
  ∧ ((parse_uint_loop l m).2 = ErrRange → (parse_uint_loop l m).1 = maxUint64)
  ∧ ((parse_uint_loop l m).2 = ErrSyntax → (parse_uint_loop l m).1 = 0).
Proof.
  revert m. induction l as [|c l IH]; intros m Hm; simpl; [naive_solver|].
  destruct (byte_digit c) as [d|] eqn:Hd; simpl; [|naive_solver].
  apply byte_digit_range in Hd.
  case_match; simpl; [unfold maxUint64; naive_solver lia|].
  case_match; simpl; [unfold maxUint64; naive_solver lia|].
  apply IH. lia.
Qed.

Lemma bytes_of_cons c s : bytes_of (String.String c s) = c :: bytes_of s.
Proof. reflexivity. Qed.

Lemma digit_not_sign c : is_Some (byte_digit c) → c ≠ "-"%char ∧ c ≠ "+"%char.
Proof. intros Hc. split; intros ->; by destruct Hc. Qed.

(** [Atoi] reads back what [%d] prints: for every [int] [z],
    [strconv.Atoi(fmt.Sprintf("%d", z))] returns [z] and a nil error. *)
Theorem Atoi_format_int (z : Z) :
  - 2 ^ 63 ≤ z < 2 ^ 63 → Atoi (format_int z) = (z, NoErr).
Proof.
  intros Hz. set (n := Z.to_N (Z.abs z)).
  assert (Hn : (n < 10 ^ N.of_nat 64)%N).
  { unfold n. apply N2Z.inj_lt. rewrite Z2N.id by lia. rewrite N2Z.inj_pow. simpl. lia. }
  destruct (dec_digits_spec 64 n "" ltac:(lia) Hn) as (ds & Hne & Hdig & Hb & Hv).
  rewrite app_nil_r in Hb.
  pose proof (Hv 0) as Hv0. rewrite Z.mul_0_l, Z.add_0_l in Hv0.
  assert (Hnz : Z.of_N n = Z.abs z) by (unfold n; rewrite Z2N.id; lia).
  destruct ds as [|c ds']; [done|].
  pose proof (digit_not_sign c (Forall_inv Hdig)) as [Hc1 Hc2].
  unfold format_int, Atoi. destruct (Z.ltb_spec z 0) as [Hneg|Hpos].
  - replace (Z.to_N (- z)) with n by (unfold n; f_equal; lia).
    change ("-" +:+ dec_digits 64 n "") with (String.String "-"%char (dec_digits 64 n "")).
    rewrite bytes_of_cons, Hb.
    case_decide.
    + unfold atoi_fast.
      rewrite (decide_True (P := "-"%char = "-"%char ∨ "-"%char = "+"%char)) by (by left).
      rewrite decide_False by naive_solver.
      rewrite Hv0. rewrite decide_True by done. f_equal. lia.
    + unfold parse_int. rewrite decide_False by done. rewrite decide_True by done.
      unfold parse_uint. rewrite (parse_uint_loop_digits _ 0 (Z.of_N n)) by
        (done || lia || (unfold maxUint64; lia)).
      simpl. destruct (Z.ltb_spec (2 ^ 63) (Z.of_N n)); [lia|]. f_equal. lia.
  - replace (Z.to_N z) with n by (unfold n; f_equal; lia).
    rewrite Hb. case_decide.
    + unfold atoi_fast.
      rewrite (decide_False (P := c = "-"%char ∨ c = "+"%char)) by (intros [?|?]; auto).
      rewrite decide_False by (intros [_ ?]; done).
      rewrite Hv0. rewrite decide_False by (intros [= ?]; done). f_equal. lia.
    + unfold parse_int. rewrite decide_False by done. rewrite decide_False by done.
      unfold parse_uint. rewrite (parse_uint_loop_digits _ 0 (Z.of_N n)) by
        (done || lia || (unfold maxUint64; lia)).
      simpl. destruct (Z.leb_spec (2 ^ 63) (Z.of_N n)); [lia|]. f_equal. lia.
Qed.

Lemma Atoi_format_int_witness : Atoi (format_int (- 9223372036854775808)) = (- 9223372036854775808, NoErr).
Proof. apply Atoi_format_int. lia. Defined.

Lemma atoi_fast_range l :
  (length l < 19)%nat →
  - 10 ^ 18 < (atoi_fast l).1 < 10 ^ 18 ∧ ((atoi_fast l).2 ≠ NoErr → (atoi_fast l).1 = 0).
Proof.
  intros Hl. unfold atoi_fast.
  set (s := match l with
            | c :: t => if decide (c = "-"%char ∨ c = "+"%char) then t else l
            | [] => [] end).
  assert (Hs : (length s ≤ 18)%nat).
  { unfold s. destruct l as [|c t]; simpl in *; [lia|]. case_decide; simpl; lia. }
  clearbody s. case_decide; [simpl; lia|].
  destruct (atoi_fast_digits s 0) as [n|] eqn:E; [|simpl; lia].
  apply atoi_fast_digits_bounds in E; [|lia].
  assert (10 ^ Z.of_nat (length s) ≤ 10 ^ 18) by (apply Z.pow_le_mono_r; lia).
  case_decide; simpl; split; try done; lia.
Qed.

Lemma parse_int_range l :
  - 2 ^ 63 ≤ (parse_int l).1 ≤ 2 ^ 63 - 1
  ∧ ((parse_int l).2 ≠ NoErr →
     (parse_int l).1 = 0 ∨ (parse_int l).1 = 2 ^ 63 - 1 ∨ (parse_int l).1 = - 2 ^ 63).
Proof.
  unfold parse_int. destruct l as [|c t]; [simpl; lia|].
  assert (Hu : ∀ s, 0 ≤ (parse_uint s).1
                    ∧ ((parse_uint s).2 = ErrRange → (parse_uint s).1 = maxUint64)).
  { intros s. unfold parse_uint. destruct s as [|c' s']; [simpl; split; [lia|done]|].
    pose proof (parse_uint_loop_result (c' :: s') 0 ltac:(lia)) as (H0 & Hr & _).
    done. }
  case_decide; [|case_decide];
    match goal with |- context [parse_uint ?s] =>
      pose proof (Hu s) as [Hn Hr]; destruct (parse_uint s) as [un err] end;
    simpl in Hn, Hr |- *; unfold maxUint64 in Hr;
    destruct err; simpl; try specialize (Hr eq_refl);
    repeat match goal with
    | |- context [?a <=? ?b] => destruct (Z.leb_spec a b)
    | |- context [?a <? ?b] => destruct (Z.ltb_spec a b)
    end; simpl; split; try lia; intros; try done; lia.
Qed.

(** [strconv.Atoi] never returns a value outside the 64-bit [int] range,
    and with a non-nil error the value is 0 (syntax error) or the clamped
    bound [MaxInt64] / [MinInt64] (range error). *)
Theorem Atoi_range (s : string) :
  - 2 ^ 63 ≤ (Atoi s).1 ≤ 2 ^ 63 - 1
  ∧ ((Atoi s).2 ≠ NoErr →
     (Atoi s).1 = 0 ∨ (Atoi s).1 = 2 ^ 63 - 1 ∨ (Atoi s).1 = - 2 ^ 63).
Proof.
  unfold Atoi. case_decide as Hl; [|apply parse_int_range].
  destruct (atoi_fast_range (bytes_of s) ltac:(lia)) as [H1 H2].
  split; [lia|]. intros He. left. by apply H2.
Qed.

(** The size the v2 handler works with is always a positive [int]: in
    [1, MaxInt64], whatever the query string holds. *)
Theorem resolve_size_range (sizeParam : string) :
  1 ≤ resolve_size sizeParam ≤ 2 ^ 63 - 1.
Proof.
  unfold resolve_size. pose proof (Atoi_range sizeParam) as [Hr _].
  destruct (Atoi sizeParam) as [v err]. simpl in Hr.
  destruct (negb (err_nil err)) eqn:E; simpl; [lia|].
  destruct (Z.leb_spec v 0); lia.
Qed.

(* ------------------------------------------------------------------ *)
(** ** [net.SplitHostPort]: what host and port can contain *)

Lemma index_byte_None (l : list ascii) c : index_byte l c = None → c ∉ l.
Proof.
  induction l as [|x l IH]; simpl; [intros _; apply not_elem_of_nil|].
  case_decide as Hx; [done|].
  destruct (index_byte l c); simpl; [done|]. intros _.
  apply not_elem_of_cons. split; [congruence|by apply IH].
Qed.

Lemma index_byte_first (l : list ascii) c k :
  index_byte l c = Some k → ∀ m, (m < k)%nat → l !! m ≠ Some c.
Proof.
  revert k. induction l as [|x l IH]; intros k; simpl; [done|].
  case_decide as Hx; [intros [= <-]; lia|].
  destruct (index_byte l c) as [k'|] eqn:E; simpl; [|done].
  intros [= <-] [|m] Hm; simpl; [congruence|]. apply (IH k'); [done|lia].
Qed.

Lemma elem_of_take_sub {A} (x : A) n l : x ∈ take n l → x ∈ l.
Proof.
  intros Hx. apply list_elem_of_lookup in Hx as [m Hm].
  rewrite lookup_take in Hm. case_decide; [|done]. by eapply list_elem_of_lookup_2.
Qed.

Lemma elem_of_drop_sub {A} (x : A) n l : x ∈ drop n l → x ∈ l.
Proof.
  intros Hx. apply list_elem_of_lookup in Hx as [m Hm].
  rewrite lookup_drop in Hm. by eapply list_elem_of_lookup_2.
Qed.

Lemma elem_of_drop_le {A} (x : A) n m l : (n ≤ m)%nat → x ∈ drop m l → x ∈ drop n l.
Proof.
  intros Hnm Hx. replace m with (n + (m - n))%nat in Hx by lia.
  rewrite <- drop_drop in Hx. by eapply elem_of_drop_sub.
Qed.

Lemma last_index_byte_drop (l : list ascii) c i :
  last_index_byte l c = Some i → c ∉ drop (S i) l.
Proof.
  unfold last_index_byte. destruct (index_byte (reverse l) c) as [k|] eqn:Hk; simpl; [|done].
  intros [= <-]. pose proof (index_byte_lookup _ _ _ Hk) as Hl.
  apply reverse_lookup_Some in Hl as [_ Hkl].
  intros Hin. apply list_elem_of_lookup in Hin as [m Hm]. rewrite lookup_drop in Hm.
  assert (S (length l - S k) + m < length l)%nat by (apply lookup_lt_Some in Hm; lia).
  apply (index_byte_first _ _ _ Hk (length l - S (S (length l - S k) + m))); [lia|].
  rewrite reverse_lookup by lia.
  by replace (length l - S (length l - S (S (length l - S k) + m)))%nat
    with (S (length l - S k) + m)%nat by lia.
Qed.

Lemma not_is_Some_None {A} (o : option A) : ¬ is_Some o → o = None.
Proof. destruct o; [intros H; exfalso; by apply H|done]. Qed.

Lemma SplitHostPort_bytes_parts hp h p :
  SplitHostPort_bytes hp = Some (h, p) →
  (":"%char ∉ p) ∧ ("["%char ∉ p) ∧ ("]"%char ∉ p) ∧ ("["%char ∉ h) ∧ ("]"%char ∉ h)
  ∧ (head hp ≠ Some "["%char → ":"%char ∉ h).
Proof.
  unfold SplitHostPort_bytes.
  destruct (last_index_byte hp ":"%char) as [i|] eqn:Hi; [|done].
  apply last_index_byte_drop in Hi.
  case_decide as Hbr.
  - destruct (index_byte hp "]"%char) as [e|] eqn:He; [|done].
    case_decide; [done|]. case_decide as Hei; [|done].
    case_decide as Hj; [done|]. case_decide as Hk; [done|].
    apply not_is_Some_None, index_byte_None in Hj, Hk.
    intros [= <- <-]. subst i.
    split; [done|]. split; [intros Hx; apply Hj; apply (elem_of_drop_le _ 1 (S (S e))); [lia|done]|].
    split; [intros Hx; apply Hk; apply (elem_of_drop_le _ (S e) (S (S e))); [lia|done]|].
    split; [intros Hx; apply Hj; by eapply elem_of_take_sub|].
    split; [|done].
    intros Hx. apply list_elem_of_lookup in Hx as [m Hm].
    rewrite lookup_take, lookup_drop in Hm. case_decide; [|done].
    by apply (index_byte_first _ _ _ He (1 + m)); [lia|].
  - destruct (index_byte (take i hp) ":"%char) eqn:Hc; [done|].
    case_decide as Hj; [done|]. case_decide as Hk; [done|].
    apply not_is_Some_None, index_byte_None in Hj, Hk. simpl in Hj, Hk.
    intros [= <- <-].
    split; [done|]. split; [intros Hx; apply Hj; by eapply elem_of_drop_sub|].
    split; [intros Hx; apply Hk; by eapply elem_of_drop_sub|].
    split; [intros Hx; apply Hj; by eapply elem_of_take_sub|].
    split; [intros Hx; apply Hk; by eapply elem_of_take_sub|].
    intros _. by apply index_byte_None.
Qed.

Lemma bytes_of_string_of l : bytes_of (string_of l) = l.
Proof. apply String.list_ascii_of_string_of_list_ascii. Qed.

(** After a successful [net.SplitHostPort] the port holds no [':'], ['[']
    or [']'] (the split is at the last colon), the host holds no bracket,
    and for an address that does not start with ['['] the host holds no
    [':'] either: an unbracketed IPv6 address is never split. *)
Theorem SplitHostPort_parts (s h p : string) :
  SplitHostPort s = Some (h, p) →
  (":"%char ∉ bytes_of p) ∧ ("["%char ∉ bytes_of p) ∧ ("]"%char ∉ bytes_of p)
  ∧ ("["%char ∉ bytes_of h) ∧ ("]"%char ∉ bytes_of h)
  ∧ (head (bytes_of s) ≠ Some "["%char → ":"%char ∉ bytes_of h).
Proof.
  unfold SplitHostPort.
  destruct (SplitHostPort_bytes (bytes_of s)) as [[hb pb]|] eqn:Hb; [|done].
  simpl. intros [= <- <-]. rewrite !bytes_of_string_of.
  by apply SplitHostPort_bytes_parts.
Qed.

Lemma SplitHostPort_parts_witness :
  SplitHostPort "10.0.0.7:443" = Some ("10.0.0.7", "443")
  ∧ (":"%char ∉ bytes_of "443") ∧ (":"%char ∉ bytes_of "10.0.0.7").
Proof.
  assert (H : SplitHostPort "10.0.0.7:443" = Some ("10.0.0.7", "443")) by (vm_compute; reflexivity).
  destruct (SplitHostPort_parts _ _ _ H) as (Hp & _ & _ & _ & _ & Hh).
  split; [exact H|]. split; [exact Hp|]. apply Hh. vm_compute. congruence.
Defined.

(* ------------------------------------------------------------------ *)
(** ** Concurrent requests: invariants *)

Lemma inv_init : inv init.
Proof.
  split; [|split; [|split]]; simpl; intros *; rewrite ?lookup_empty.
  - by intros [? ?].
  - done.
  - set_solver.
  - done.
Qed.

Lemma set_phase_reg j J p s r : sys_reg (set_phase j J p s r) = r.
Proof. done. Qed.

Lemma set_phase_next j J p s r : sys_next (set_phase j J p s r) = sys_next s.
Proof. done. Qed.

(** A step that moves a registered request to another registered phase. *)
Lemma inv_advance s j J p' :
  inv s → sys_jobs s !! j = Some J →
  registered (job_phase J) = true → registered p' = true →
  (p' = PDone OCancelled ∨ p' = PDone OCancelledLarge → j ∈ ctx_done (sys_reg s)) →
  inv (set_phase j J p' s (sys_reg s)).
Proof.
  intros (I1 & I2 & I3 & I4) HJ Hr Hr' Hc.
  assert (Hp' : p' ≠ PArrived) by (by intros ->).
  split; [|split; [|split]]; rewrite ?set_phase_reg, ?set_phase_next.
  - intros c. rewrite set_phase_lookup. case_decide; [subst; intros _; apply I1; by eexists|apply I1].
  - intros k c Hk. destruct (I2 k c Hk) as (Hc' & Jc & HJc & Hkey & HrJc). split; [done|].
    rewrite set_phase_lookup. case_decide; [subst|eauto].
    rewrite HJ in HJc. injection HJc as ->. eexists. split; [done|]. simpl. eauto.
  - intros c Hcd. destruct (I3 c Hcd) as (Jc & HJc & HrJc & j' & J' & Hne & HJ' & Hkey & HpJ').
    assert (Hw : ∃ j'' J'', j'' ≠ c ∧ sys_jobs (set_phase j J p' s (sys_reg s)) !! j'' = Some J''
                  ∧ job_key J'' = job_key Jc ∧ job_phase J'' ≠ PArrived).
    { exists j'. rewrite set_phase_lookup. case_decide; [subst|eauto].
      rewrite HJ in HJ'. injection HJ' as ->. eexists. split; [done|]. simpl. eauto. }
    rewrite set_phase_lookup. case_decide as Hjc; [|eauto].
    subst c. rewrite HJ in HJc. injection HJc as ->. eexists. split; [done|]. split; [done|].
    simpl. exact Hw.
  - intros c Jc. rewrite set_phase_lookup. case_decide; [subst|apply I4].
    intros [= <-]. simpl. apply Hc.
Qed.

Lemma registered_ne (s : sys) j J c Jc :
  sys_jobs s !! j = Some J → registered (job_phase J) = false →
  sys_jobs s !! c = Some Jc → registered (job_phase Jc) = true → j ≠ c.
Proof. intros HJ Hr HJc Hrc ->. rewrite HJ in HJc. injection HJc as ->. congruence. Qed.

Lemma inv_arrive s addr sz :
  inv s →
  inv {| sys_reg := sys_reg s;
         sys_jobs := <[sys_next s := {| job_key := extractIP addr; job_size := sz;
                                        job_phase := PArrived |}]> (sys_jobs s);
         sys_next := S (sys_next s) |}.
Proof.
  intros (I1 & I2 & I3 & I4).
  assert (Hold : ∀ c Jc, sys_jobs s !! c = Some Jc →
            <[sys_next s := {| job_key := extractIP addr; job_size := sz;
                               job_phase := PArrived |}]> (sys_jobs s) !! c = Some Jc).
  { intros c Jc Hc. rewrite lookup_insert_ne; [done|].
    assert (c < sys_next s)%nat by (apply I1; by eexists). lia. }
  split; [|split; [|split]]; simpl.
  - intros j [x Hx]. rewrite lookup_insert in Hx. case_decide; [lia|].
    assert (j < sys_next s)%nat by (apply I1; by eexists). lia.
  - intros k c Hk. destruct (I2 k c Hk) as (? & Jc & HJc & ? & ?). split; [done|].
    exists Jc. auto.
  - intros c Hc. destruct (I3 c Hc) as (Jc & HJc & ? & j' & J' & ? & HJ' & ? & ?).
    exists Jc. split; [auto|]. split; [done|]. exists j', J'. auto.
  - intros j J. rewrite lookup_insert. case_decide; [intros [= <-]; simpl; intros [?|?]; done|].
    apply I4.
Qed.

Lemma inv_supersede s j J :
  inv s → sys_jobs s !! j = Some J → job_phase J = PArrived →
  inv (set_phase j J PSuperseded s (cancelPreviousRequest (job_key J) (sys_reg s))).
Proof.
  intros (I1 & I2 & I3 & I4) HJ Hph.
  assert (HrJ : registered (job_phase J) = false) by (by rewrite Hph).
  assert (Hkeep : ∀ c Jc, sys_jobs s !! c = Some Jc → registered (job_phase Jc) = true →
            sys_jobs (set_phase j J PSuperseded s (cancelPreviousRequest (job_key J) (sys_reg s)))
              !! c = Some Jc).
  { intros c Jc HJc Hrc. rewrite set_phase_lookup.
    by rewrite decide_False by (eapply registered_ne; eauto). }
  assert (Hself : sys_jobs (set_phase j J PSuperseded s (cancelPreviousRequest (job_key J) (sys_reg s)))
              !! j = Some {| job_key := job_key J; job_size := job_size J; job_phase := PSuperseded |}).
  { rewrite set_phase_lookup. by rewrite decide_True. }
  assert (Hwit : ∀ j' J', sys_jobs s !! j' = Some J' → job_phase J' ≠ PArrived ∨ j' = j →
            ∃ J'', sys_jobs (set_phase j J PSuperseded s
                               (cancelPreviousRequest (job_key J) (sys_reg s))) !! j' = Some J''
                   ∧ job_key J'' = job_key J' ∧ job_phase J'' ≠ PArrived).
  { intros j' J' HJ' Hp. destruct (decide (j = j')) as [<-|Hne].
    - rewrite HJ in HJ'. injection HJ' as <-. eexists. by split; [apply Hself|].
    - rewrite set_phase_lookup, decide_False by done. exists J'. split; [done|].
      split; [done|]. destruct Hp; [done|congruence]. }
  split; [|split; [|split]]; rewrite ?set_phase_reg, ?set_phase_next.
  - intros c. rewrite set_phase_lookup. case_decide; [subst; intros _; apply I1; by eexists|apply I1].
  - intros k c. unfold cancelPreviousRequest.
    destruct (activeRequests (sys_reg s) !! job_key J) as [c0|] eqn:Hk0; simpl.
    + rewrite lookup_delete. case_decide as Hkk; [done|]. intros Hk.
      destruct (I2 k c Hk) as (Hc & Jc & HJc & Hkey & Hrc).
      destruct (I2 _ c0 Hk0) as (_ & Jc0 & HJc0 & Hkey0 & _).
      split.
      * apply not_elem_of_union. split; [|done]. apply not_elem_of_singleton.
        intros ->. rewrite HJc in HJc0. injection HJc0 as ->. congruence.
      * exists Jc. auto.
    + intros Hk. destruct (I2 k c Hk) as (Hc & Jc & HJc & Hkey & Hrc). split; [done|].
      exists Jc. auto.
  - intros c. unfold cancelPreviousRequest.
    destruct (activeRequests (sys_reg s) !! job_key J) as [c0|] eqn:Hk0; simpl.
    + intros [->%elem_of_singleton|Hc]%elem_of_union.
      * destruct (I2 _ c0 Hk0) as (_ & Jc & HJc & Hkey & Hrc).
        exists Jc. split; [auto|]. split; [done|].
        exists j, {| job_key := job_key J; job_size := job_size J; job_phase := PSuperseded |}.
        split; [eapply registered_ne; eauto|]. split; [done|]. by split.
      * destruct (I3 c Hc) as (Jc & HJc & Hrc & j' & J' & Hne & HJ' & Hkey & Hp').
        exists Jc. split; [auto|]. split; [done|].
        destruct (Hwit j' J' HJ' (or_introl Hp')) as (J'' & ? & ? & ?).
        exists j', J''. split; [done|]. split; [done|]. split; [congruence|done].
    + intros Hc. destruct (I3 c Hc) as (Jc & HJc & Hrc & j' & J' & Hne & HJ' & Hkey & Hp').
      exists Jc. split; [auto|]. split; [done|].
      destruct (Hwit j' J' HJ' (or_introl Hp')) as (J'' & ? & ? & ?).
      exists j', J''. split; [done|]. split; [done|]. split; [congruence|done].
  - intros c Jc. rewrite set_phase_lookup. case_decide.
    + intros [= <-]. simpl. intros [?|?]; done.
    + intros HJc Hd. pose proof (I4 c Jc HJc Hd) as Hin. unfold cancelPreviousRequest.
      destruct (activeRequests (sys_reg s) !! job_key J); simpl; [|done].
      by apply elem_of_union_r.
Qed.

Lemma inv_register s j J p' :
  inv s → sys_jobs s !! j = Some J → job_phase J = PSuperseded →
  registered p' = true → (∀ o, p' ≠ PDone o) →
  inv (set_phase j J p' s (registerRequest (job_key J) j (sys_reg s))).
Proof.
  intros (I1 & I2 & I3 & I4) HJ Hph Hr' Hnd.
  assert (HrJ : registered (job_phase J) = false) by (by rewrite Hph).
  assert (Hp' : p' ≠ PArrived) by (by intros ->).
  assert (Hjd : j ∉ ctx_done (sys_reg s)).
  { intros Hin. destruct (I3 j Hin) as (Jc & HJc & Hrc & _).
    rewrite HJ in HJc. injection HJc as <-. congruence. }
  assert (Hkeep : ∀ c Jc, sys_jobs s !! c = Some Jc → registered (job_phase Jc) = true →
            sys_jobs (set_phase j J p' s (registerRequest (job_key J) j (sys_reg s))) !! c = Some Jc).
  { intros c Jc HJc Hrc. rewrite set_phase_lookup.
    by rewrite decide_False by (eapply registered_ne; eauto). }
  split; [|split; [|split]]; rewrite ?set_phase_reg, ?set_phase_next;
    cbn [registerRequest activeRequests ctx_done].
  - intros c. rewrite set_phase_lookup. case_decide; [subst; intros _; apply I1; by eexists|apply I1].
  - intros k c. rewrite lookup_insert. case_decide as Hk.
    + intros [= <-]. split; [done|]. rewrite set_phase_lookup, decide_True by done.
      eexists. split; [done|]. by split.
    + intros Hkc. destruct (I2 k c Hkc) as (Hc & Jc & HJc & Hkey & Hrc). split; [done|].
      exists Jc. auto.
  - intros c Hc. destruct (I3 c Hc) as (Jc & HJc & Hrc & j' & J' & Hne & HJ' & Hkey & Hp0).
    exists Jc. split; [auto|]. split; [done|].
    destruct (decide (j = j')) as [<-|Hne'].
    + exists j, {| job_key := job_key J; job_size := job_size J; job_phase := p' |}.
      rewrite HJ in HJ'. injection HJ' as <-.
      split; [done|]. rewrite set_phase_lookup, decide_True by done. by split.
    + exists j', J'. rewrite set_phase_lookup, decide_False by done. done.
  - intros c Jc. rewrite set_phase_lookup. case_decide.
    + intros [= <-]. simpl. intros [Hd|Hd]; exfalso; by apply (Hnd _ Hd).
    + apply I4.
Qed.

Lemma inv_step s a s' : inv s → step s a = Some s' → inv s'.
Proof.
  intros Hinv Hs. destruct a as [addr sz|j|j|j ok|j|j]; simpl in Hs.
  - injection Hs as <-. by apply inv_arrive.
  - destruct (sys_jobs s !! j) as [J|] eqn:HJ; simpl in Hs; [|done].
    destruct (job_phase J) eqn:Hph; try done. injection Hs as <-.
    by apply inv_supersede.
  - destruct (sys_jobs s !! j) as [J|] eqn:HJ; simpl in Hs; [|done].
    destruct (job_phase J) eqn:Hph; try done. injection Hs as <-.
    apply inv_register; [done|done|done| |]; by case_match.
  - destruct (sys_jobs s !! j) as [J|] eqn:HJ; simpl in Hs; [|done].
    destruct (job_phase J) eqn:Hph; try done. injection Hs as <-.
    apply inv_advance; [done|done|by rewrite Hph|by destruct ok|].
    destruct ok; by intros [?|?].
  - destruct (sys_jobs s !! j) as [J|] eqn:HJ; simpl in Hs; [|done].
    destruct (job_phase J) eqn:Hph; try done. injection Hs as <-.
    apply inv_advance; [done|done|by rewrite Hph|done|].
    case_bool_decide; [done|]. by intros [?|?].
  - destruct (sys_jobs s !! j) as [J|] eqn:HJ; simpl in Hs; [|done].
    destruct (job_phase J) eqn:Hph; try done.
    case_bool_decide as Hin; [|done]. injection Hs as <-.
    apply inv_advance; [done|done|by rewrite Hph|done|]. by intros _.
Qed.

Lemma run_inv s tr s' : inv s → run s tr = Some s' → inv s'.
Proof.
  revert s. induction tr as [|a tr IH]; intros s Hinv Hrun; simpl in Hrun.
  - by injection Hrun as <-.
  - destruct (step s a) as [s1|] eqn:Hs; [|done]. simpl in Hrun.
    eapply IH; [|done]. by eapply inv_step.
Qed.

Lemma reachable_inv tr s : run init tr = Some s → inv s.
Proof. intros Hrun. eapply run_inv; [apply inv_init|done]. Qed.

(** In every reachable state the registry holds only live contexts: an
    entry [ip ↦ cancel] names a request of key [ip] that has registered it
    and whose context has not been cancelled.  In particular a stale entry
    (C3) always belongs to the last request that registered under its key. *)
Theorem activeRequests_live tr s k c :
  run init tr = Some s → activeRequests (sys_reg s) !! k = Some c →
  (c ∉ ctx_done (sys_reg s))
  ∧ ∃ Jc, sys_jobs s !! c = Some Jc ∧ job_key Jc = k ∧ registered (job_phase Jc) = true.
Proof. intros Hrun. apply (reachable_inv tr s Hrun). Qed.

Lemma activeRequests_live_witness :
  0%nat ∉ ctx_done (sys_reg (state_of (run init trace_single))).
Proof.
  apply (activeRequests_live trace_single (state_of (run init trace_single)) "10.0.0.7" 0).
  - vm_compute. reflexivity.
  - vm_compute. reflexivity.
Defined.

(** A request reports a cancellation (["Request was cancelled"] or the
    large-size message) only if its context was cancelled, and only another
    request from the same client key, one that has run its
    [cancelPreviousRequest], can have cancelled it. *)
Theorem cancellation_has_cause tr s j J :
  run init tr = Some s → sys_jobs s !! j = Some J →
  job_phase J = PDone OCancelled ∨ job_phase J = PDone OCancelledLarge →
  j ∈ ctx_done (sys_reg s)
  ∧ ∃ j' J', j' ≠ j ∧ sys_jobs s !! j' = Some J' ∧ job_key J' = job_key J
             ∧ job_phase J' ≠ PArrived.
Proof.
  intros Hrun HJ Hd. destruct (reachable_inv tr s Hrun) as (_ & _ & I3 & I4).
  pose proof (I4 j J HJ Hd) as Hin. split; [done|].
  destruct (I3 j Hin) as (Jc & HJc & _ & Hw). rewrite HJ in HJc. by injection HJc as <-.
Qed.

Lemma cancellation_has_cause_witness :
  0%nat ∈ ctx_done (sys_reg (state_of (run init (trace_superseded ++ [ASupersede 1; AFinish 0])))).
Proof.
  refine (proj1 (cancellation_has_cause (trace_superseded ++ [ASupersede 1; AFinish 0])
            (state_of (run init (trace_superseded ++ [ASupersede 1; AFinish 0]))) 0
            {| job_key := "10.0.0.7"; job_size := "10"; job_phase := PDone OCancelled |} _ _ _)).
  - vm_compute. reflexivity.
  - vm_compute. reflexivity.
  - left. reflexivity.
Defined.

(* ------------------------------------------------------------------ *)
(** ** The handler and the database *)

Lemma compute_and_report_no_store e n :
  Forall (λ ev, is_store ev = false) (compute_and_report e n).
Proof.
  unfold compute_and_report. apply Forall_app. split; [repeat constructor|].
  destruct (env_post_done e); [repeat constructor|].
  apply Forall_app. split; [repeat constructor|].
  apply Forall_fmap, Forall_forall. done.
Qed.

Lemma filter_all_false (l : list event) :
  Forall (λ ev, is_store ev = false) l → filter (λ ev, is_store ev = false) l = l.
Proof.
  induction 1 as [|ev l Hev _ IH]; [done|]. rewrite filter_cons_True by done. by f_equal.
Qed.

Lemma filter_none_store (l : list event) :
  Forall (λ ev, is_store ev = false) l → filter (λ ev, is_store ev = true) l = [].
Proof.
  induction 1 as [|ev l Hev _ IH]; [done|]. rewrite filter_cons_False; [done|]. congruence.
Qed.

(** [storeRequestInfo] in the v2 handler: a request whose resolved size is
    above 2000 is never recorded; any other request is recorded exactly
    once, with its key and resolved size; if that write fails the client
    gets the 500 error and nothing is generated, multiplied or written. *)
Theorem handler_store_behaviour e addr p :
  (2000 < resolve_size p → filter (λ ev, is_store ev = true) (handler e addr p) = [])
  ∧ (resolve_size p ≤ 2000 →
     filter (λ ev, is_store ev = true) (handler e addr p)
     = [EvStore (extractIP addr) (resolve_size p)])
  ∧ (resolve_size p ≤ 2000 → env_store_ok e = false →
     writes (handler e addr p) = []
     ∧ (∀ n, (EvGenerate n ∉ handler e addr p) ∧ (EvMultiply n ∉ handler e addr p))
     ∧ last (handler e addr p) = Some (EvHttpError "Failed to store request info" 500)).
Proof.
  unfold handler. split; [|split].
  - intros Hn. rewrite (proj2 (Z.ltb_lt _ _) Hn). reflexivity.
  - intros Hn. rewrite (proj2 (Z.ltb_ge _ _) Hn).
    rewrite filter_app. simpl. rewrite filter_cons_True by done. f_equal.
    destruct (env_store_ok e); simpl; [|done].
    apply filter_none_store, compute_and_report_no_store.
  - intros Hn Hok. rewrite (proj2 (Z.ltb_ge _ _) Hn), Hok. simpl.
    split; [done|]. split; [|done].
    intros n. split; intros Hin; repeat (apply elem_of_cons in Hin as [Hin|Hin]; [done|]);
      by apply not_elem_of_nil in Hin.
Qed.

Lemma handler_store_behaviour_witness :
  filter (λ ev, is_store ev = true)
    (handler {| env_store_ok := true; env_rand_a := λ _ _, 1; env_rand_b := λ _ _, 2;
                env_row_done := never_done; env_post_done := false; env_ms := 3 |}
       "10.0.0.7:40001" "2")
  = [EvStore (extractIP "10.0.0.7:40001") (resolve_size "2")].
Proof.
  apply (proj1 (proj2 (handler_store_behaviour
    {| env_store_ok := true; env_rand_a := λ _ _, 1; env_rand_b := λ _ _, 2;
       env_row_done := never_done; env_post_done := false; env_ms := 3 |}
    "10.0.0.7:40001" "2"))).
  vm_compute. discriminate.
Defined.

(** The two versions of the handler agree on every request except one
    whose size fails to parse with a range error above the limit (C5):
    with a working database, the earlier handler's effects are the v2
    handler's effects without the [storeRequestInfo] call. *)
Theorem handler_v1_v2_agree e addr p :
  ¬ ((Atoi p).2 ≠ NoErr ∧ 2000 < (Atoi p).1) → env_store_ok e = true →
  handler_v1 e addr p = filter (λ ev, is_store ev = false) (handler e addr p).
Proof.
  intros Hp Hok. unfold handler, handler_v1, resolve_size.
  destruct (Atoi p) as [v err]. simpl in Hp.
  set (R := if negb (err_nil err) || (v <=? 0) then 100 else v).
  assert (Hg : (2000 <? v) = (2000 <? R)).
  { unfold R. destruct err; simpl.
    - destruct (Z.leb_spec v 0); [|done].
      rewrite (proj2 (Z.ltb_ge 2000 v)) by lia. done.
    - rewrite (proj2 (Z.ltb_ge 2000 v)); [done|].
      destruct (Z.leb_spec v 2000); [done|]. exfalso. apply Hp. split; [done|lia].
    - rewrite (proj2 (Z.ltb_ge 2000 v)); [done|].
      destruct (Z.leb_spec v 2000); [done|]. exfalso. apply Hp. split; [done|lia]. }
  rewrite filter_app, <- Hg. f_equal.
  destruct (2000 <? v); [done|].
  rewrite filter_cons_False by done. rewrite Hok. simpl.
  symmetry. apply filter_all_false, compute_and_report_no_store.
Qed.

Lemma handler_v1_v2_agree_witness :
  handler_v1 {| env_store_ok := true; env_rand_a := λ _ _, 1; env_rand_b := λ _ _, 2;
                env_row_done := never_done; env_post_done := false; env_ms := 3 |}
    "10.0.0.7:40001" "abc"
  = filter (λ ev, is_store ev = false)
      (handler {| env_store_ok := true; env_rand_a := λ _ _, 1; env_rand_b := λ _ _, 2;
                  env_row_done := never_done; env_post_done := false; env_ms := 3 |}
         "10.0.0.7:40001" "abc").
Proof.
  apply handler_v1_v2_agree; [|reflexivity].
  vm_compute. intros [_ H]. discriminate H.
Defined.

(* ------------------------------------------------------------------ *)
(** ** Stored requests and the [/all-values] page *)

#[local] Instance row_le_trans : Transitive row_le.
Proof. intros r1 r2 r3. unfold row_le. lia. Qed.

#[local] Instance row_le_total : Total row_le.
Proof. intros r1 r2. unfold row_le. lia. Qed.

Lemma handler_filter_store e addr p :
  filter (λ ev, is_store ev = true) (handler e addr p)
  = if 2000 <? resolve_size p then [] else [EvStore (extractIP addr) (resolve_size p)].
Proof.
  unfold handler. destruct (2000 <? resolve_size p); [reflexivity|].
  rewrite filter_app. simpl. rewrite filter_cons_True by done.
  destruct (env_store_ok e); simpl; [|done].
  by rewrite filter_none_store by apply compute_and_report_no_store.
Qed.

Lemma foldl_apply_event_filter now ok d (l : list event) :
  foldl (apply_event now ok) d l = foldl (apply_event now ok) d (filter (λ ev, is_store ev = true) l).
Proof.
  revert d. induction l as [|ev l IH]; intros d; [done|].
  destruct ev; simpl; rewrite ?filter_cons_True, ?filter_cons_False by done; simpl; apply IH.
Qed.

Lemma serve_cons now e d q reqs :
  serve now e d (q :: reqs)
  = serve now e (foldl (apply_event now q.2) d (handler (with_store e q.2) q.1.1 q.1.2)) reqs.
Proof. reflexivity. Qed.

Lemma serve_one now e d addr p ok :
  foldl (apply_event now ok) d (handler (with_store e ok) addr p)
  = if ok && negb (2000 <? resolve_size p)
    then storeRequestInfo now (extractIP addr) (resolve_size p) d else d.
Proof.
  rewrite foldl_apply_event_filter, handler_filter_store.
  destruct (2000 <? resolve_size p), ok; reflexivity.
Qed.

Lemma StronglySorted_filter_weaken {A} (R R' : relation A) (P : A → Prop) `{∀ x, Decision (P x)} l :
  (∀ x y, R x y → R' x y) → StronglySorted R l → StronglySorted R' (filter P l).
Proof.
  intros HRR. induction 1 as [|x l _ IH Hx]; [constructor|].
  rewrite filter_cons. case_decide; [|done].
  constructor; [done|]. apply Forall_forall. intros y Hy.
  apply list_elem_of_filter in Hy as [_ Hy]. apply HRR. by apply (Forall_forall _ l) with y in Hx.
Qed.

Lemma StronglySorted_ids_unique (l : list Requests) x1 x2 :
  StronglySorted (λ r1 r2, req_id r1 < req_id r2)%nat l →
  x1 ∈ l → x2 ∈ l → req_id x1 = req_id x2 → x1 = x2.
Proof.
  induction 1 as [|x l _ IH Hx]; [intros Hin; by apply not_elem_of_nil in Hin|].
  rewrite Forall_forall in Hx.
  intros [->|H1]%elem_of_cons [->|H2]%elem_of_cons Heq; try done.
  - specialize (Hx x2 H2). lia.
  - specialize (Hx x1 H1). lia.
  - by apply IH.
Qed.

(** With ids increasing along the table, [ORDER BY id] keeps table order. *)
Lemma getRequestInfo_table_order d ip page pageSize :
  StronglySorted (λ r1 r2, req_id r1 < req_id r2)%nat (db_rows d) →
  getRequestInfo d ip page pageSize = filter (λ r, req_ip r = ip) (db_rows d).
Proof.
  intros Hs. unfold getRequestInfo.
  set (l := filter (λ r, req_ip r = ip) (db_rows d)).
  assert (Hl : StronglySorted (λ r1 r2, req_id r1 < req_id r2)%nat l).
  { unfold l. apply (StronglySorted_filter_weaken (λ r1 r2, (req_id r1 < req_id r2)%nat)); auto. }
  apply (StronglySorted_unique_strong row_le).
  - intros x1 x2 H1 H2 Hle1 Hle2. apply (StronglySorted_ids_unique l); [done| |done|].
    + by rewrite <- (merge_sort_Permutation row_le l).
    + unfold row_le in *. lia.
  - apply StronglySorted_merge_sort; apply _.
  - clear -Hl. induction Hl as [|x l _ IH Hx]; constructor; [done|].
    eapply Forall_impl; [done|]. intros y. unfold row_le. lia.
  - apply merge_sort_Permutation.
Qed.

Lemma storeRequestInfo_ordered now ip n d :
  StronglySorted (λ r1 r2, req_id r1 < req_id r2)%nat (db_rows d) →
  Forall (λ r, req_id r < db_serial d)%nat (db_rows d) →
  StronglySorted (λ r1 r2, req_id r1 < req_id r2)%nat (db_rows (storeRequestInfo now ip n d))
  ∧ Forall (λ r, req_id r < db_serial (storeRequestInfo now ip n d))%nat
      (db_rows (storeRequestInfo now ip n d)).
Proof.
  intros Hs Hf. simpl. split.
  - apply StronglySorted_app. split; [|split; [done|repeat constructor]].
    intros x1 x2 H1 H2. apply list_elem_of_singleton in H2 as ->. simpl.
    by apply (Forall_forall _ (db_rows d)) with x1 in Hf.
  - apply Forall_app. split; [|repeat constructor; simpl; lia].
    eapply Forall_impl; [done|]. simpl. lia.
Qed.

Lemma serve_rows now e d reqs ip :
  StronglySorted (λ r1 r2, req_id r1 < req_id r2)%nat (db_rows d) →
  Forall (λ r, req_id r < db_serial d)%nat (db_rows d) →
  StronglySorted (λ r1 r2, req_id r1 < req_id r2)%nat (db_rows (serve now e d reqs))
  ∧ map req_matrix_size (filter (λ r, req_ip r = ip) (db_rows (serve now e d reqs)))
    = map req_matrix_size (filter (λ r, req_ip r = ip) (db_rows d))
      ++ map (λ q, resolve_size q.1.2)
           (filter (λ q, q.2 = true ∧ extractIP q.1.1 = ip ∧ resolve_size q.1.2 ≤ 2000) reqs).
Proof.
  revert d. induction reqs as [|[[addr p] ok] reqs IH]; intros d Hs Hf.
  { simpl. by rewrite app_nil_r. }
  rewrite serve_cons, serve_one. simpl.
  destruct ok; simpl; destruct (Z.ltb_spec 2000 (resolve_size p)) as [Hgt|Hle]; simpl.
  - rewrite filter_cons_False by (simpl; intros (_ & _ & ?); lia). by apply IH.
  - destruct (storeRequestInfo_ordered now (extractIP addr) (resolve_size p) d Hs Hf) as [Hs' Hf'].
    destruct (IH _ Hs' Hf') as [IH1 IH2]. split; [done|]. rewrite IH2. simpl.
    rewrite filter_app, map_app, <- (assoc_L (++)). f_equal.
    rewrite filter_cons. case_decide as Hip; simpl in Hip.
    + rewrite filter_cons_True by (simpl; split; [done|split; [done|lia]]). done.
    + rewrite filter_cons_False by (simpl; intros (_ & ? & _); done). done.
  - rewrite filter_cons_False by (simpl; intros [? _]; done). by apply IH.
  - rewrite filter_cons_False by (simpl; intros [? _]; done). by apply IH.
Qed.

(** What [/all-values] shows a client after a sequence of requests served
    by the v2 handler: one table row for each stored request of the
    client's key, oldest first, with the size the handler resolved; the
    oversize requests and those whose write failed are absent, and
    [page] and [pageSize] change nothing. *)
Theorem allValues_lists_stored now e reqs addr :
  ∃ rows,
    (∀ page pageSize, allValues (serve now e db_empty reqs) true addr page pageSize
    = RespHtml (foldl (λ acc r, acc +:+ row_html r) table_head rows +:+ "</tbody></table>"))
    ∧ Forall (λ r, req_ip r = extractIP addr) rows
    ∧ StronglySorted (λ r1 r2, req_id r1 < req_id r2)%nat rows
    ∧ map req_matrix_size rows
      = map (λ q, resolve_size q.1.2)
          (filter (λ q, q.2 = true ∧ extractIP q.1.1 = extractIP addr
                        ∧ resolve_size q.1.2 ≤ 2000) reqs).
Proof.
  destruct (serve_rows now e db_empty reqs (extractIP addr)) as [Hs Hm]; [constructor|constructor|].
  exists (filter (λ r, req_ip r = extractIP addr) (db_rows (serve now e db_empty reqs))).
  split; [|split; [|split]].
  - intros page pageSize.
    unfold allValues. destruct (allValues_params page pageSize) as [cp cps]. simpl.
    by rewrite getRequestInfo_table_order.
  - apply Forall_forall. intros r Hr. by apply list_elem_of_filter in Hr as [? _].
  - by apply StronglySorted_filter_weaken with (R := λ r1 r2, (req_id r1 < req_id r2)%nat).
  - by rewrite Hm.
Qed.

(* ------------------------------------------------------------------ *)
(** ** Start-up *)

Lemma main_serve_listen be connStr a :
  BListen a ∈ main_serve be connStr ↔
  be_open_ok be = true ∧ be_migrate_ok be = true ∧ a = ":" +:+ format_int 8080.
Proof.
  unfold main_serve. rewrite list_elem_of_In.
  destruct (be_open_ok be), (be_migrate_ok be); cbn [In]; split.
  - intros H. repeat destruct H as [H|H]; try discriminate; try contradiction.
    injection H as <-. done.
  - intros (_ & _ & ->). repeat first [left; reflexivity | right].
  - intros H. repeat destruct H as [H|H]; discriminate || contradiction.
  - intros (_ & ? & _). discriminate.
  - intros H. repeat destruct H as [H|H]; discriminate || contradiction.
  - intros (? & _). discriminate.
  - intros H. repeat destruct H as [H|H]; discriminate || contradiction.
  - intros (? & _). discriminate.
Qed.

Lemma main_serve_no_create be connStr d u pw :
  BCreateDatabase d u pw ∉ main_serve be connStr.
Proof.
  unfold main_serve. rewrite list_elem_of_In.
  destruct (be_open_ok be), (be_migrate_ok be); cbn [In];
    intros H; repeat destruct H as [H|H]; discriminate || contradiction.
Qed.

(** [main] serves (reaches [ListenAndServe] on [:8080]) exactly when the
    existence check succeeded, the database existed or was created, and
    opening and migrating it succeeded; it calls [createDatabase] only
    when the check reported the database missing; and whatever happens,
    its first output prints the database password in clear. *)
Theorem main_startup be username password dbName host :
  (∀ a, BListen a ∈ main be username password dbName host ↔
     (be_exists be = Some true ∨ (be_exists be = Some false ∧ be_create_ok be = true))
     ∧ be_open_ok be = true ∧ be_migrate_ok be = true ∧ a = ":" +:+ format_int 8080)
  ∧ (∀ d u pw, BCreateDatabase d u pw ∈ main be username password dbName host →
       be_exists be = Some false ∧ d = dbName ∧ u = username ∧ pw = password)
  ∧ (be_exists be = Some false → BCreateDatabase dbName username password ∈ main be username password dbName host)
  ∧ head (main be username password dbName host) = Some (BPrintln [username; password; dbName; host]).
Proof.
  unfold main. split; [|split; [|split]]; [| | |done].
  - intros a. destruct (be_exists be) as [[|]|]; simpl.
    + rewrite !elem_of_cons, main_serve_listen. naive_solver.
    + destruct (be_create_ok be); simpl.
      * rewrite !elem_of_cons, main_serve_listen. naive_solver.
      * rewrite !elem_of_cons, elem_of_nil. naive_solver.
    + rewrite !elem_of_cons, elem_of_nil. naive_solver.
  - intros d u pw. destruct (be_exists be) as [[|]|]; simpl.
    + rewrite !elem_of_cons. intros [?|[?|?]]; [done|done|].
      by apply main_serve_no_create in H.
    + destruct (be_create_ok be); simpl;
        rewrite !elem_of_cons, ?elem_of_nil.
      * intros [?|[?|[[= -> -> ->]|[?|?]]]]; try done. by apply main_serve_no_create in H.
      * intros [?|[?|[[= -> -> ->]|[?|?]]]]; done.
    + rewrite !elem_of_cons, elem_of_nil. naive_solver.
  - intros ->. simpl. rewrite !elem_of_cons. naive_solver.
Qed.
